(** * ZltRepo: the 2-D particle header (src/physics.h) and the b2 game driver
      (b2/src/game.cpp)

    Definitions:

    - [F32]: the C++ [float] (IEEE-754 binary32), on the Standard Library's
      [spec_float] at precision 24 and maximal exponent 128, together with
      the literals that occur in the sources.
    - [Physics]: the classes declared in src/physics.h ([Particle],
      [GridCell]).  The header only declares them; the member bodies live in
      a translation unit that is not part of the sources, and are modelled
      from the design document where a statement needs them.
    - [B2]: [Game] from b2/src/game.cpp: construction, the logic thread
      ([Game::logicRoutine]) as a labelled transition system interleaved
      with the owner's calls, and [Game::presentScene] as a transformer of
      the GL state.  The classes that game.cpp only uses are the fields of
      [B2.Collaborators].
    - [Demo], [Samples]: concrete inputs on which the definitions run.
    - [PhysicsClass]: [class Physics] of src/physics.h with its inline
      member [init]; [B2Runs]: further observations on the runs of [B2];
      [Demo2]: further concrete inputs.

    Facts: [F32Facts], [PhysicsFacts], [GameFacts], [InitFacts],
    [RunFacts]. *)

From Stdlib Require Import ZArith NArith List Bool Lia.
From Stdlib Require Import Floats.SpecFloat.
Import ListNotations.

Set Implicit Arguments.

(** ** binary32 *)

Module F32.

Definition prec : Z := 24.
Definition emax : Z := 128.

Definition float : Set := spec_float.

Definition add : float -> float -> float := SFadd prec emax.
Definition sub : float -> float -> float := SFsub prec emax.
Definition mul : float -> float -> float := SFmul prec emax.
Definition div : float -> float -> float := SFdiv prec emax.
Definition sqrt : float -> float := SFsqrt prec emax.
Definition ltb : float -> float -> bool := SFltb.
Definition leb : float -> float -> bool := SFleb.

(** [float(n)] for an integer [n]: round to nearest, ties to even. *)
Definition of_Z (n : Z) : float := binary_normalize prec emax n 0 false.

Definition zero : float := S754_zero false.

(** [int32_t(f)]: truncation toward zero.  The conversion is undefined
    when the truncated value is not representable (or [f] is not finite);
    that case is [None]. *)
Definition to_int32 (f : float) : option Z :=
  match f with
  | S754_zero _ => Some 0%Z
  | S754_finite s m e =>
      let a := if (0 <=? e)%Z then Z.shiftl (Zpos m) e
               else Z.shiftr (Zpos m) (- e) in
      let v := if s then (- a)%Z else a in
      if ((- 2 ^ 31 <=? v) && (v <? 2 ^ 31))%Z then Some v else None
  | S754_infinity _ | S754_nan => None
  end.

(** The literals of the sources, as the nearest binary32 values. *)
Definition lit_0_5 : float := S754_finite false 8388608 (-24).
Definition lit_0_01 : float := S754_finite false 10737418 (-30).
Definition lit_9_8 : float := S754_finite false 10276045 (-20).
Definition lit_1000 : float := S754_finite false 16384000 (-14).
Definition lit_0_6 : float := Eval cbv in div (of_Z 6) (of_Z 10).
Definition lit_0_4 : float := Eval cbv in div (of_Z 4) (of_Z 10).

End F32.

Definition float : Set := F32.float.

(** [size_t] is 64 bits wide, [int] 32 bits (two's complement). *)
Definition SIZE_MOD : N := 2 ^ 64.

Definition wrap_size (n : N) : N := (n mod SIZE_MOD)%N.

Definition wrap_int (z : Z) : Z := ((z + 2 ^ 31) mod 2 ^ 32 - 2 ^ 31)%Z.

(** ** src/physics.h *)

Module Physics.

Definition DEFAULT_CELL_CAPACITY : N := 32.

(** [glm::vec2] of floats. *)
Record vec2 : Set := mkvec2 { x : float; y : float }.

Definition components (v : vec2) : list float := [x v; y v].

Definition vec2_zero : vec2 := mkvec2 F32.zero F32.zero.
Definition vec2_add (a b : vec2) : vec2 :=
  mkvec2 (F32.add (x a) (x b)) (F32.add (y a) (y b)).
Definition vec2_sub (a b : vec2) : vec2 :=
  mkvec2 (F32.sub (x a) (x b)) (F32.sub (y a) (y b)).
Definition vec2_scale (a : vec2) (k : float) : vec2 :=
  mkvec2 (F32.mul (x a) k) (F32.mul (y a) k).
Definition vec2_div (a : vec2) (k : float) : vec2 :=
  mkvec2 (F32.div (x a) k) (F32.div (y a) k).
Definition dot (a b : vec2) : float :=
  F32.add (F32.mul (x a) (x b)) (F32.mul (y a) (y b)).
(** [glm::length]: the Euclidean norm. *)
Definition length (a : vec2) : float := F32.sqrt (dot a a).

(** [class Particle]: the private members [pos], [prev], [forces], [mass]
    (physics.h, lines 33-35). *)
Record Particle : Set := mkParticle {
  pos : vec2;
  prev : vec2;
  forces : vec2;
  mass : float
}.

(** [Particle() = default]: the defaulted constructor is not user-provided,
    so a value-initialised [Particle()] is zero-initialised. *)
Definition Particle_value_init : Particle :=
  mkParticle vec2_zero vec2_zero vec2_zero F32.zero.

(** Modelled from the spec: [Particle::calcAcceleration], whose body is not
    in the sources; "compute acceleration from accumulated force and
    mass". *)
Definition calcAcceleration (p : Particle) : vec2 :=
  vec2_div (forces p) (mass p).

(** Modelled from the spec: [Particle::applyForce], whose body is not in the
    sources; "accumulates f into the force buffer; side effect only, no
    motion". *)
Definition applyForce (f : vec2) (p : Particle) : Particle :=
  mkParticle (pos p) (prev p) (vec2_add (forces p) f) (mass p).

(** Modelled from the spec: [Particle::move], whose body is not in the
    sources; "derive velocity implicitly as position - previousPosition,
    set previousPosition = position, then position += velocity +
    acceleration*dt^2; clears the force accumulator". *)
Definition move (dt : float) (p : Particle) : Particle :=
  let acceleration := calcAcceleration p in
  let velocity := vec2_sub (pos p) (prev p) in
  mkParticle
    (vec2_add (pos p)
       (vec2_add velocity (vec2_scale acceleration (F32.mul dt dt))))
    (pos p)
    vec2_zero
    (mass p).

(** Modelled from the spec: [Particle::setPosition], whose body is not in
    the sources; a position teleport that "alters the next step's implied
    velocity", that is, [prev] stays. *)
Definition setPosition (v : vec2) (p : Particle) : Particle :=
  mkParticle v (prev p) (forces p) (mass p).

(** A write through the reference returned by the non-const
    [getForses()]. *)
Definition writeForses (v : vec2) (p : Particle) : Particle :=
  mkParticle (pos p) (prev p) v (mass p).

Section Intersect.

(** The fixed particle radius: a constant of the absent translation
    unit. *)
Variable PARTICLE_RADIUS : float.

Definition radius_sum : float := F32.add PARTICLE_RADIUS PARTICLE_RADIUS.

(** The separation vector from the receiver to the argument. *)
Definition separation (self particle : Particle) : vec2 :=
  vec2_sub (pos particle) (pos self).

(** What a call leaves behind: the receiver (the method is not [const]),
    and the two out-parameters.  The argument is a [const &]. *)
Record IntersectResult : Set := mkIntersectResult {
  ret : bool;
  self_after : Particle;
  outDist : vec2;
  outDiff : float
}.

(** Modelled from the spec: [Particle::intersect], whose body is not in
    the sources; "returns whether the Euclidean distance between the two
    particles is less than the sum of their fixed radii; on true,
    reports the separation vector and overlap magnitude (radius_sum -
    distance).  Pure query, no mutation". *)
Definition intersect (self particle : Particle)
    (outDist0 : vec2) (outDiff0 : float) : IntersectResult :=
  let dist := separation self particle in
  let len := length dist in
  if F32.ltb len radius_sum
  then mkIntersectResult true self dist (F32.sub radius_sum len)
  else mkIntersectResult false self outDist0 outDiff0.

End Intersect.

(** The public operations that can change a [Particle] after its
    construction. *)
Inductive ParticleOp : Set :=
| OpSetPosition (v : vec2)
| OpWriteForses (v : vec2)
| OpApplyForce (f : vec2)
| OpMove (dt : float)
| OpIntersect (radius : float) (other : Particle).

Definition run_op (o : ParticleOp) (p : Particle) : Particle :=
  match o with
  | OpSetPosition v => setPosition v p
  | OpWriteForses v => writeForses v p
  | OpApplyForce f => applyForce f p
  | OpMove dt => move dt p
  | OpIntersect r other => self_after (intersect r p other vec2_zero F32.zero)
  end.

Definition run_ops (ops : list ParticleOp) (p : Particle) : Particle :=
  fold_left (fun q o => run_op o q) ops p.

(** *** GridCell *)

(** A [Particle *]: an address; 0 is the null pointer. *)
Definition ParticlePtr : Set := N.

(** [class GridCell]: [count] and the array
    [particles[DEFAULT_CELL_CAPACITY]] (physics.h, lines 53-54). *)
Record GridCell : Set := mkGridCell {
  count : N;
  particles : list ParticlePtr
}.

(** A store into a C array: [None] is a write outside the array. *)
Definition array_store (a : list ParticlePtr) (i : N) (v : ParticlePtr)
    : option (list ParticlePtr) :=
  if (i <? N.of_nat (List.length a))%N
  then Some (firstn (N.to_nat i) a ++ v :: skipn (S (N.to_nat i)) a)
  else None.

(** Modelled from the spec: [GridCell::GridCell], whose body is not in the
    sources; an empty bucket over [DEFAULT_CELL_CAPACITY] slots. *)
Definition GridCell_new : GridCell :=
  mkGridCell 0 (repeat 0%N (N.to_nat DEFAULT_CELL_CAPACITY)).

(** Modelled from the spec: [GridCell::getCount], whose body is not in the
    sources; the number of references the bucket holds. *)
Definition getCount (c : GridCell) : N := count c.

(** Modelled from the spec: [GridCell::push], whose body is not in the
    sources; "appends it into that cell's bucket; if the bucket is at
    capacity, the push is dropped".  [None] is an out-of-bounds write. *)
Definition push (particle : ParticlePtr) (c : GridCell) : option GridCell :=
  if (count c <? DEFAULT_CELL_CAPACITY)%N
  then match array_store (particles c) (count c) particle with
       | Some a => Some (mkGridCell (wrap_size (count c + 1)) a)
       | None => None
       end
  else Some c.

(** Modelled from the spec: [GridCell::clear], whose body is not in the
    sources; "resets all cell counts to zero without deallocating backing
    storage". *)
Definition clear (c : GridCell) : GridCell := mkGridCell 0 (particles c).

Inductive CellOp : Set :=
| OpPush (particle : ParticlePtr)
| OpClear.

Definition cell_op (o : CellOp) (c : GridCell) : option GridCell :=
  match o with
  | OpPush p => push p c
  | OpClear => Some (clear c)
  end.

Fixpoint cell_ops (ops : list CellOp) (c : GridCell) : option GridCell :=
  match ops with
  | [] => Some c
  | o :: ops' =>
      match cell_op o c with
      | Some c' => cell_ops ops' c'
      | None => None
      end
  end.

(** The representation invariant of a cell. *)
Definition cell_ok (c : GridCell) : Prop :=
  (count c <= DEFAULT_CELL_CAPACITY)%N /\
  List.length (particles c) = N.to_nat DEFAULT_CELL_CAPACITY.

End Physics.

(** ** b2/src/game.cpp *)

Module B2.

Record ivec2 : Set := mkivec2 { ix : Z; iy : Z }.

Record ivec3 : Set := mkivec3 { gx : Z; gy : Z; gz : Z }.

Record vec3 : Set := mkvec3 { x : float; y : float; z : float }.

Record vec4 : Set := mkvec4 { r : float; g : float; b : float; a : float }.

(** [glm::ivec3(int)] and the component-wise [+] on [int]. *)
Definition ivec3_splat (k : Z) : ivec3 := mkivec3 k k k.

Definition ivec3_add (u v : ivec3) : ivec3 :=
  mkivec3 (wrap_int (gx u + gx v)) (wrap_int (gy u + gy v))
          (wrap_int (gz u + gz v)).

(** [glm::vec3(ivec3)], [float * vec3] and unary minus. *)
Definition vec3_of_ivec3 (v : ivec3) : vec3 :=
  mkvec3 (F32.of_Z (gx v)) (F32.of_Z (gy v)) (F32.of_Z (gz v)).

Definition vec3_scale (v : vec3) (k : float) : vec3 :=
  mkvec3 (F32.mul (x v) k) (F32.mul (y v) k) (F32.mul (z v) k).

Definition vec3_opp (v : vec3) : vec3 :=
  mkvec3 (SFopp (x v)) (SFopp (y v)) (SFopp (z v)).

(** The initial value of the acceleration member (game.cpp, line 21). *)
Definition default_acceleration : vec3 :=
  mkvec3 F32.zero (SFopp F32.lit_9_8) F32.zero.

(** The colour of [setClearColor] (game.cpp, line 120). *)
Definition clear_color : vec4 :=
  mkvec4 F32.lit_0_5
         F32.lit_0_6 F32.lit_0_4 (F32.of_Z 1).

(** *** The members whose classes are declared outside the sources *)

(** Modelled from the spec: the class of [Game::acceleration], which is not
    in the sources; a "single latest-value slot", where [push] "overwrites
    the latest-value slot" and [get] "returns the current value". *)
Record AccelerationInput : Set := mkAccelerationInput { slot : vec3 }.

Definition Acceleration_push (v : vec3) (_ : AccelerationInput)
    : AccelerationInput := mkAccelerationInput v.

Definition Acceleration_get (i : AccelerationInput) : vec3 := slot i.

(** Modelled from the spec: the class of [Game::mesh], which is not in the
    sources; "two mesh slots plus an atomically-updated selector", where
    [swap] "moves newMesh into the currently-inactive slot, then atomically
    flips the active-slot selector" and [get] returns the active slot. *)
Record MeshBuffer (M : Type) : Type := mkMeshBuffer {
  slot0 : M;
  slot1 : M;
  selector : bool
}.

Definition MeshBuffer_get {M} (d : MeshBuffer M) : M :=
  if selector d then slot1 d else slot0 d.

Definition MeshBuffer_swap {M} (newMesh : M) (d : MeshBuffer M)
    : MeshBuffer M :=
  if selector d
  then mkMeshBuffer newMesh (slot1 d) false
  else mkMeshBuffer (slot0 d) newMesh true.

(** [std::thread]. *)
Inductive Thread : Set := NotStarted | Running | Joined.

(** The three coordinates, and the orders in which the three arguments of
    [glm::vec3(x(generator), y(generator), z(generator))] (game.cpp, line
    69) can be evaluated: the language leaves the order to the compiler. *)
Inductive Axis : Set := AxisX | AxisY | AxisZ.

Inductive ArgOrder : Set := XYZ | XZY | YXZ | YZX | ZXY | ZYX.

Definition axes (o : ArgOrder) : Axis * Axis * Axis :=
  match o with
  | XYZ => (AxisX, AxisY, AxisZ)
  | XZY => (AxisX, AxisZ, AxisY)
  | YXZ => (AxisY, AxisX, AxisZ)
  | YZX => (AxisY, AxisZ, AxisX)
  | ZXY => (AxisZ, AxisX, AxisY)
  | ZYX => (AxisZ, AxisY, AxisX)
  end.

Definition Axis_eqb (a b : Axis) : bool :=
  match a, b with
  | AxisX, AxisX | AxisY, AxisY | AxisZ, AxisZ => true
  | _, _ => false
  end.

Definition extent (size : ivec3) (a : Axis) : Z :=
  match a with
  | AxisX => gx size
  | AxisY => gy size
  | AxisZ => gz size
  end.

(** The collaborators of [Game] that the sources only use: the physics
    cloud, the isosurface extractor, [<random>], the constants of game.hpp
    and the GL wrappers. *)
Class Collaborators : Type := {
  Particle : Type;
  Particle_ctor : vec3 -> Particle;
  Cloud : Type;
  Cloud_default : Cloud;
  (** [physics::Cloud(gridSize, count, generator)]; the generator is given
      by the particle that its [i]-th invocation returns. *)
  Cloud_ctor : ivec3 -> N -> (nat -> Particle) -> Cloud;
  Cloud_update : vec3 -> float -> bool -> Cloud -> Cloud;
  Cloud_getParticles : Cloud -> list Particle;
  MeshVertex : Type;
  sizeof_MeshVertex : N;
  (** [gl::Buffer]: the default-constructed buffer, [operator bool],
      [getSize], the constructor from vertex data and [write(offset, data)]. *)
  Buffer : Type;
  Buffer_default : Buffer;
  Buffer_valid : Buffer -> bool;
  Buffer_getSize : Buffer -> N;
  Buffer_ctor : list MeshVertex -> Buffer;
  Buffer_write : N -> list MeshVertex -> Buffer -> Buffer;
  Isosurface : Type;
  Isosurface_default : Isosurface;
  Isosurface_ctor : ivec3 -> Isosurface;
  generateMesh :
    list Particle -> float -> bool -> Isosurface ->
    list MeshVertex * Isosurface;
  margin : Z;
  radius : float;
  Engine : Type;
  default_random_engine : Z -> Engine;
  uniform_real_distribution : float -> float -> Engine -> float * Engine;
  (** The order of evaluation that the compiler has chosen for the
      arguments of the constructor call at game.cpp, line 69. *)
  argument_order : ArgOrder;
  Mat4 : Type;
  mat4_diag : float -> Mat4;
  ShaderProgram : Type;
  ShaderProgram_default : ShaderProgram;
  surface_program : ShaderProgram;
  Camera : Type;
  Camera_default : Camera;
  getPerspective : Camera -> float -> float -> float -> Mat4;
  lookAt : vec3 -> vec3 -> vec3 -> Camera -> Camera;
  (** [camera.getView() * glm::translate(glm::mat4(1.f), t)]. *)
  view_translated : Camera -> vec3 -> Mat4
}.

Section Game.

Context {collab : Collaborators}.

Definition Mesh : Type := list MeshVertex.

Inductive AttribType : Set := AttribFloat.

Record VertexAttrib : Set := mkVertexAttrib {
  attribCount : N;
  attribStride : N;
  attribType : AttribType
}.

Inductive FrameOp : Set :=
| ClearColorDepth
| DrawTriangles (count : N).

(** The GL state that [presentScene] acts on. *)
Record GLState : Type := mkGLState {
  arrayBuffer : option Buffer;
  vertexFormat : list VertexAttrib;
  program : option ShaderProgram;
  projectionUniform : option Mat4;
  modelviewUniform : option Mat4;
  depthTest : bool;
  clearColor : vec4;
  frameOps : list FrameOp
}.

(** The members of [Game] that the two source functions of the logic thread
    and the presentation use. *)
Record Game : Type := mkGame {
  acceleration : AccelerationInput;
  alive : bool;
  singleThread : bool;
  gridSize : ivec3;
  particlesCloud : Cloud;
  isosurface : Isosurface;
  mesh : MeshBuffer Mesh;
  logicThread : Thread;
  surfaceVertices : Buffer;
  shaderProgram : ShaderProgram;
  projection : Mat4;
  camera : Camera
}.

Definition set_acceleration (v : AccelerationInput) (s : Game) : Game :=
  mkGame v (alive s) (singleThread s) (gridSize s) (particlesCloud s)
    (isosurface s) (mesh s) (logicThread s) (surfaceVertices s)
    (shaderProgram s) (projection s) (camera s).

Definition set_alive (v : bool) (s : Game) : Game :=
  mkGame (acceleration s) v (singleThread s) (gridSize s) (particlesCloud s)
    (isosurface s) (mesh s) (logicThread s) (surfaceVertices s)
    (shaderProgram s) (projection s) (camera s).

Definition set_singleThread (v : bool) (s : Game) : Game :=
  mkGame (acceleration s) (alive s) v (gridSize s) (particlesCloud s)
    (isosurface s) (mesh s) (logicThread s) (surfaceVertices s)
    (shaderProgram s) (projection s) (camera s).

Definition set_gridSize (v : ivec3) (s : Game) : Game :=
  mkGame (acceleration s) (alive s) (singleThread s) v (particlesCloud s)
    (isosurface s) (mesh s) (logicThread s) (surfaceVertices s)
    (shaderProgram s) (projection s) (camera s).

Definition set_particlesCloud (v : Cloud) (s : Game) : Game :=
  mkGame (acceleration s) (alive s) (singleThread s) (gridSize s) v
    (isosurface s) (mesh s) (logicThread s) (surfaceVertices s)
    (shaderProgram s) (projection s) (camera s).

Definition set_isosurface (v : Isosurface) (s : Game) : Game :=
  mkGame (acceleration s) (alive s) (singleThread s) (gridSize s)
    (particlesCloud s) v (mesh s) (logicThread s) (surfaceVertices s)
    (shaderProgram s) (projection s) (camera s).

Definition set_mesh (v : MeshBuffer Mesh) (s : Game) : Game :=
  mkGame (acceleration s) (alive s) (singleThread s) (gridSize s)
    (particlesCloud s) (isosurface s) v (logicThread s) (surfaceVertices s)
    (shaderProgram s) (projection s) (camera s).

Definition set_logicThread (v : Thread) (s : Game) : Game :=
  mkGame (acceleration s) (alive s) (singleThread s) (gridSize s)
    (particlesCloud s) (isosurface s) (mesh s) v (surfaceVertices s)
    (shaderProgram s) (projection s) (camera s).

Definition set_surfaceVertices (v : Buffer) (s : Game) : Game :=
  mkGame (acceleration s) (alive s) (singleThread s) (gridSize s)
    (particlesCloud s) (isosurface s) (mesh s) (logicThread s) v
    (shaderProgram s) (projection s) (camera s).

Definition set_render (p : ShaderProgram) (m : Mat4) (c : Camera) (s : Game)
    : Game :=
  mkGame (acceleration s) (alive s) (singleThread s) (gridSize s)
    (particlesCloud s) (isosurface s) (mesh s) (logicThread s)
    (surfaceVertices s) p m c.

(** *** Construction *)

(** How a call ends: normally, by a failed [_assert] (with the state it left
    behind), or in undefined behaviour. *)
Inductive outcome (A : Type) : Type :=
| Done (s : A)
| AssertionFailed (code : Z) (s : A)
| Undefined.

Arguments Done {A} s.
Arguments AssertionFailed {A} code s.
Arguments Undefined {A}.

(** Modelled from the spec: the macro [_assert] of exception.hpp, which is
    not in the sources; a violated condition is an "unrecoverable
    configuration error: fail fast", so control does not reach the
    statements after it. *)
Definition _assert {A} (cond : bool) (code : Z) (s : A)
    (rest : A -> outcome A) : outcome A :=
  if cond then rest s else AssertionFailed code s.

(** One call of a distribution of the lambda: [x], [y] or [z], over
    [[0.5, float(gridSize.axis) - 0.5)]. *)
Definition draw (size : ivec3) (a : Axis) (e : Engine) : float * Engine :=
  uniform_real_distribution F32.lit_0_5
    (F32.sub (F32.of_Z (extent size a)) F32.lit_0_5) e.

(** The value drawn for axis [a], when the axes were drawn in the order
    [a1], [a2], [a3] with the results [v1], [v2], [v3]. *)
Definition drawn (a a1 a2 : Axis) (v1 v2 v3 : float) : float :=
  if Axis_eqb a a1 then v1 else if Axis_eqb a a2 then v2 else v3.

(** The lambda handed to [physics::Cloud] (game.cpp, lines 64-70), as a
    function of the timestamp that its call reads: every call builds a new
    engine from [Timer::getTimestamp()].  The three distributions draw from
    that one engine, in the order in which the compiler evaluates the
    arguments of the constructor call. *)
Definition generator (size : ivec3) (timestamp : Z) : Particle :=
  let e0 := default_random_engine timestamp in
  let '(a1, a2, a3) := axes argument_order in
  let '(v1, e1) := draw size a1 e0 in
  let '(v2, e2) := draw size a2 e1 in
  let '(v3, _) := draw size a3 e2 in
  Particle_ctor
    (mkvec3 (drawn AxisX a1 a2 v1 v2 v3) (drawn AxisY a1 a2 v1 v2 v3)
            (drawn AxisZ a1 a2 v1 v2 v3)).

(** [int32_t(gridWidth * float(surfaceSize.y) / surfaceSize.x)]. *)
Definition gridHeight (surfaceSize : ivec2) (gridWidth : N) : option Z :=
  F32.to_int32
    (F32.div (F32.mul (F32.of_Z (Z.of_N gridWidth))
                      (F32.of_Z (iy surfaceSize)))
             (F32.of_Z (ix surfaceSize))).

(** [Game::initLogicThread] (game.cpp, lines 57-73).  [clock i] is the
    timestamp that the [i]-th call of [Timer::getTimestamp()] returns. *)
Definition initLogicThread (surfaceSize : ivec2)
    (gridWidth particlesCount : N) (clock : nat -> Z) (s : Game)
    : outcome Game :=
  _assert (0 <? gridWidth)%N 0xd78eead8 s (fun s =>
  _assert (0 <? particlesCount)%N 0xd78eead8 s (fun s =>
  match gridHeight surfaceSize gridWidth with
  | None => Undefined
  | Some h =>
      let size :=
        mkivec3 (wrap_int (Z.of_N gridWidth)) h
                (wrap_int (Z.of_N gridWidth)) in
      let s := set_gridSize size s in
      let s :=
        set_particlesCloud
          (Cloud_ctor (gridSize s) particlesCount
             (fun i => generator (gridSize s) (clock i))) s in
      let s :=
        set_isosurface
          (Isosurface_ctor (ivec3_add (gridSize s) (ivec3_splat margin))) s in
      Done (set_logicThread Running s)
  end)).

(** [Game::initRender] (game.cpp, lines 75-86). *)
Definition initRender (surfaceSize : ivec2) (s : Game) : Game :=
  let proj :=
    getPerspective (camera s) (F32.of_Z 75)
      (F32.div (F32.of_Z (ix surfaceSize)) (F32.of_Z (iy surfaceSize)))
      (F32.of_Z 1000) in
  let cam :=
    lookAt (mkvec3 F32.zero F32.zero (F32.of_Z (-50)))
           (mkvec3 F32.zero F32.zero F32.zero)
           (mkvec3 F32.zero (F32.of_Z 1) F32.zero)
           (camera s) in
  set_render surface_program proj cam s.

(** The values that the constructor reads from configs/game.json. *)
Record Config : Set := mkConfig {
  config_singleThread : bool;
  config_gridWidth : N;
  config_particlesCount : N
}.

(** The members after the constructor's initialiser list (game.cpp, lines
    20-24); the remaining members are default-constructed. *)
Definition Game_members : Game :=
  mkGame (mkAccelerationInput default_acceleration) true true
    (mkivec3 0 0 0) Cloud_default Isosurface_default
    (mkMeshBuffer [] [] false) NotStarted Buffer_default
    ShaderProgram_default
    (mat4_diag (F32.of_Z 1)) Camera_default.

(** [Game::Game] (game.cpp, lines 19-37). *)
Definition Game_ctor (config : Config) (surfaceSize : ivec2)
    (clock : nat -> Z) : outcome Game :=
  let s := set_singleThread (config_singleThread config) Game_members in
  match
    initLogicThread surfaceSize (config_gridWidth config)
      (config_particlesCount config) clock s
  with
  | Done s => Done (initRender surfaceSize s)
  | AssertionFailed code s => AssertionFailed code s
  | Undefined => Undefined
  end.

(** [Game::onSensorsEvent] (game.cpp, lines 52-55). *)
Definition onSensorsEvent (v : vec3) (s : Game) : Game :=
  set_acceleration (Acceleration_push v (acceleration s)) s.

(** *** Presentation *)

Definition size (m : Mesh) : N := N.of_nat (List.length m).

Definition surface_format : list VertexAttrib :=
  [ mkVertexAttrib 3 sizeof_MeshVertex AttribFloat;
    mkVertexAttrib 3 sizeof_MeshVertex AttribFloat ].

(** [Game::presentScene] (game.cpp, lines 88-123). *)
Definition presentScene (s : Game) (gl : GLState) : Game * GLState :=
  let boxSize :=
    vec3_of_ivec3 (ivec3_add (gridSize s) (ivec3_splat margin)) in
  let localMesh := MeshBuffer_get (mesh s) in
  if (size localMesh =? 0)%N then (s, gl)
  else
    let bytes := wrap_size (size localMesh * sizeof_MeshVertex) in
    let buf :=
      if negb (Buffer_valid (surfaceVertices s))
         || (Buffer_getSize (surfaceVertices s) <? bytes)%N
      then Buffer_ctor localMesh
      else Buffer_write 0 localMesh (surfaceVertices s) in
    (set_surfaceVertices buf s,
     mkGLState (Some buf) surface_format (Some (shaderProgram s))
       (Some (projection s))
       (Some (view_translated (camera s)
                (vec3_scale (vec3_opp boxSize) F32.lit_0_5)))
       true clear_color
       (frameOps gl ++ [ClearColorDepth; DrawTriangles (size localMesh)])).

(** [Game::update] (game.cpp, lines 45-50). *)
Definition update (s : Game) (gl : GLState) : Game * GLState :=
  presentScene s gl.

(** *** The logic thread *)

(** The statements of [Game::logicRoutine] (game.cpp, lines 125-164). *)
Inductive Label : Set :=
| L_Entry      (* 127-129: the locals are initialised *)
| L_While      (* 131: the loop condition *)
| L_Timer      (* 143-144 *)
| L_Update     (* 146 *)
| L_PTime      (* 147 *)
| L_Swap       (* 149 *)
| L_RTime      (* 151 *)
| L_Frames     (* 153 *)
| L_Elapsed    (* 154 *)
| L_Check      (* 156-162 *)
| L_Return.    (* 164 *)

(** The locals of [logicRoutine]; [st] is the local [singleThread]. *)
Record Locals : Set := mkLocals {
  pc : Label;
  frames : N;
  elapsed : float;
  pTime : float;
  rTime : float;
  st : bool
}.

Definition at_label (l : Label) (v : Locals) : Locals :=
  mkLocals l (frames v) (elapsed v) (pTime v) (rTime v) (st v).

(** The owner of the [Game] object: it lives, is inside the destructor
    (game.cpp, lines 39-43) between the store and the join, or is gone. *)
Inductive Owner : Set := Live | Joining | Destroyed.

Record World : Type := mkWorld {
  game : Game;
  locals : Locals;
  owner : Owner;
  glstate : GLState
}.

(** What an observer sees of a step. *)
Inductive Event : Type :=
| EvEnter
| EvAlive (flag : bool)
| EvSingleThread (flag : bool)
| EvUpdate (externalAcceleration : vec3) (dt : float) (single : bool)
| EvPhysicsTime (delta : float)
| EvSwap (m : Mesh)
| EvRenderTime (delta : float)
| EvFrame
| EvElapsed (delta : float)
| EvInfo (physics render : float)
| EvNoInfo
| EvSensors (v : vec3)
| EvPresent
| EvDtorStore
| EvDtorJoin.

(** One statement of the logic thread.  [delta] is what [getDeltaMs()]
    returns if the statement calls it ([Timer] is not in the sources). *)
Definition logic_step (delta : float) (w : World) : option (Event * World) :=
  let s := game w in
  let v := locals w in
  let continue e s' v' := Some (e, mkWorld s' v' (owner w) (glstate w)) in
  match logicThread s with
  | Running =>
      match pc v with
      | L_Entry =>
          continue EvEnter s
            (mkLocals L_While 0 F32.zero F32.zero F32.zero (st v))
      | L_While =>
          let flag := alive s in
          continue (EvAlive flag) s
            (at_label (if flag then L_Timer else L_Return) v)
      | L_Timer =>
          let flag := singleThread s in
          continue (EvSingleThread flag) s
            (mkLocals L_Update (frames v) (elapsed v) (pTime v) (rTime v)
               flag)
      | L_Update =>
          let acc := Acceleration_get (acceleration s) in
          continue (EvUpdate acc F32.lit_0_01 (st v))
            (set_particlesCloud
               (Cloud_update acc F32.lit_0_01 (st v) (particlesCloud s)) s)
            (at_label L_PTime v)
      | L_PTime =>
          continue (EvPhysicsTime delta) s
            (mkLocals L_Swap (frames v) (elapsed v)
               (F32.add (pTime v) delta) (rTime v) (st v))
      | L_Swap =>
          let '(m, iso) :=
            generateMesh (Cloud_getParticles (particlesCloud s)) radius
              (st v) (isosurface s) in
          continue (EvSwap m)
            (set_mesh (MeshBuffer_swap m (mesh s)) (set_isosurface iso s))
            (at_label L_RTime v)
      | L_RTime =>
          continue (EvRenderTime delta) s
            (mkLocals L_Frames (frames v) (elapsed v) (pTime v)
               (F32.add (rTime v) delta) (st v))
      | L_Frames =>
          continue EvFrame s
            (mkLocals L_Elapsed (wrap_size (frames v + 1)) (elapsed v)
               (pTime v) (rTime v) (st v))
      | L_Elapsed =>
          continue (EvElapsed delta) s
            (mkLocals L_Check (frames v) (F32.add (elapsed v) delta)
               (pTime v) (rTime v) (st v))
      | L_Check =>
          if F32.leb F32.lit_1000 (elapsed v)
          then
            continue
              (EvInfo (F32.div (pTime v) (F32.of_Z (Z.of_N (frames v))))
                      (F32.div (rTime v) (F32.of_Z (Z.of_N (frames v)))))
              s
              (mkLocals L_While 0 F32.zero F32.zero F32.zero (st v))
          else continue EvNoInfo s (at_label L_While v)
      | L_Return => None
      end
  | NotStarted | Joined => None
  end.

(** What can happen next: a statement of the logic thread, or a call by the
    owner ([onSensorsEvent], [update], the two statements of the
    destructor). *)
Inductive Action : Set :=
| ALogic (delta : float)
| ASensors (v : vec3)
| AUpdate
| ADtorStore
| ADtorJoin.

Definition step (act : Action) (w : World) : option (Event * World) :=
  match act with
  | ALogic delta => logic_step delta w
  | ASensors v =>
      match owner w with
      | Live =>
          Some (EvSensors v,
                mkWorld (onSensorsEvent v (game w)) (locals w) (owner w)
                  (glstate w))
      | Joining | Destroyed => None
      end
  | AUpdate =>
      match owner w with
      | Live =>
          let '(s, gl) := update (game w) (glstate w) in
          Some (EvPresent, mkWorld s (locals w) (owner w) gl)
      | Joining | Destroyed => None
      end
  | ADtorStore =>
      match owner w with
      | Live =>
          Some (EvDtorStore,
                mkWorld (set_alive false (game w)) (locals w) Joining
                  (glstate w))
      | Joining | Destroyed => None
      end
  | ADtorJoin =>
      match owner w, pc (locals w) with
      | Joining, L_Return =>
          Some (EvDtorJoin,
                mkWorld (set_logicThread Joined (game w)) (locals w)
                  Destroyed (glstate w))
      | _, _ => None
      end
  end.

(** A finite run and the events it shows, oldest first. *)
Fixpoint run (acts : list Action) (w : World) : option (list Event * World) :=
  match acts with
  | [] => Some ([], w)
  | act :: acts' =>
      match step act w with
      | Some (e, w') =>
          match run acts' w' with
          | Some (tr, w'') => Some (e :: tr, w'')
          | None => None
          end
      | None => None
      end
  end.

Inductive exec : World -> list Event -> World -> Prop :=
| exec_nil : forall w, exec w [] w
| exec_snoc : forall w tr w' act e w'',
    exec w tr w' -> step act w' = Some (e, w'') -> exec w (tr ++ [e]) w''.

(** The world when the constructor returns: the thread has been spawned and
    has not run yet. *)
Definition GL_initial : GLState :=
  mkGLState None [] None None None false
    (mkvec4 F32.zero F32.zero F32.zero F32.zero) [].

Definition spawn (s : Game) : World :=
  mkWorld s (mkLocals L_Entry 0 F32.zero F32.zero F32.zero false) Live
    GL_initial.

Definition started (w : World) : Prop :=
  pc (locals w) = L_Entry /\ owner w = Live /\ alive (game w) = true /\
  logicThread (game w) = Running.

(** *** Observations on a trace *)

(** The value most recently handed to [onSensorsEvent] in [tr], or [v0] if
    there was no call. *)
Definition latest (tr : list Event) (v0 : vec3) : vec3 :=
  fold_left (fun v e => match e with EvSensors u => u | _ => v end) tr v0.

(** The events after the last log line. *)
Definition interval (tr : list Event) : list Event :=
  fold_left
    (fun acc e => match e with EvInfo _ _ => [] | _ => acc ++ [e] end)
    tr [].

(** The sums that the three accumulators should hold, added up in the order
    of the readings, and the number of completed iterations. *)
Definition physics_total (iv : list Event) : float :=
  fold_left
    (fun t e => match e with EvPhysicsTime d => F32.add t d | _ => t end)
    iv F32.zero.

Definition render_total (iv : list Event) : float :=
  fold_left
    (fun t e => match e with EvRenderTime d => F32.add t d | _ => t end)
    iv F32.zero.

Definition elapsed_total (iv : list Event) : float :=
  fold_left
    (fun t e => match e with EvElapsed d => F32.add t d | _ => t end)
    iv F32.zero.

Definition iterations (iv : list Event) : N :=
  fold_left (fun n e => match e with EvFrame => (n + 1)%N | _ => n end)
    iv 0%N.

(** Where the loop is within an iteration, as far as the flag, the update
    and the publication are concerned. *)
Inductive Phase : Set :=
| Idle        (* the flag is to be read next *)
| Entered     (* the flag was read as set; no update yet *)
| Updated     (* the update is done; the mesh is not yet published *)
| Stopped.    (* the flag was read as cleared *)

(** The protocol of an iteration: flag, update, swap, and nothing of the
    three after a cleared flag.  [None] is a violation. *)
Definition observe (ph : option Phase) (e : Event) : option Phase :=
  match ph, e with
  | None, _ => None
  | Some Idle, EvAlive true => Some Entered
  | Some Idle, EvAlive false => Some Stopped
  | Some _, EvAlive _ => None
  | Some Entered, EvUpdate _ _ _ => Some Updated
  | Some _, EvUpdate _ _ _ => None
  | Some Updated, EvSwap _ => Some Idle
  | Some _, EvSwap _ => None
  | Some p, _ => Some p
  end.

Definition protocol (tr : list Event) : option Phase :=
  fold_left observe tr (Some Idle).

Definition phase_at (l : Label) : Phase :=
  match l with
  | L_Entry | L_While | L_RTime | L_Frames | L_Elapsed | L_Check => Idle
  | L_Timer | L_Update => Entered
  | L_PTime | L_Swap => Updated
  | L_Return => Stopped
  end.

(** The statement that follows [l] when the flag reads [flag], and the
    number of statements from [l] to the return once the flag is cleared. *)
Definition successor (flag : bool) (l : Label) : Label :=
  match l with
  | L_Entry => L_While
  | L_While => if flag then L_Timer else L_Return
  | L_Timer => L_Update
  | L_Update => L_PTime
  | L_PTime => L_Swap
  | L_Swap => L_RTime
  | L_RTime => L_Frames
  | L_Frames => L_Elapsed
  | L_Elapsed => L_Check
  | L_Check => L_While
  | L_Return => L_Return
  end.

Definition distance (l : Label) : nat :=
  match l with
  | L_Return => 0
  | L_While => 1
  | L_Entry | L_Check => 2
  | L_Elapsed => 3
  | L_Frames => 4
  | L_RTime => 5
  | L_Swap => 6
  | L_PTime => 7
  | L_Update => 8
  | L_Timer => 9
  end.

(** The events that the protocol watches, and a stretch of trace without
    any of them. *)
Definition is_protocol_event (e : Event) : bool :=
  match e with
  | EvAlive _ | EvUpdate _ _ _ | EvSwap _ => true
  | _ => false
  end.



(** The accumulators as the loop holds them (they do not exist before the
    locals are initialised), and as the trace says they should be. *)
Definition ledger (v : Locals) : N * float * float * float :=
  match pc v with
  | L_Entry => (0%N, F32.zero, F32.zero, F32.zero)
  | _ => (frames v, elapsed v, pTime v, rTime v)
  end.

Definition totals (iv : list Event) : N * float * float * float :=
  (wrap_size (iterations iv), elapsed_total iv, physics_total iv,
   render_total iv).

End Game.

End B2.

(** A small instance of the collaborators, on which the definitions of [B2]
    can be run. *)
Module Demo.

Import B2.

Definition drift (acc : vec3) (dt : float) (p : vec3) : vec3 :=
  mkvec3 (F32.add (x p) (F32.mul (x acc) dt))
         (F32.add (y p) (F32.mul (y acc) dt))
         (F32.add (z p) (F32.mul (z acc) dt)).

Definition collab : Collaborators := {|
  Particle := vec3;
  Particle_ctor := fun p => p;
  Cloud := list vec3;
  Cloud_default := [];
  Cloud_ctor := fun _ n gen => map gen (seq 0 (N.to_nat n));
  Cloud_update := fun acc dt _ c => map (drift acc dt) c;
  Cloud_getParticles := fun c => c;
  MeshVertex := vec3;
  sizeof_MeshVertex := 12;
  Buffer := list vec3;
  Buffer_default := [];
  Buffer_valid := fun b => negb (N.of_nat (List.length b) =? 0)%N;
  Buffer_getSize := fun b => (12 * N.of_nat (List.length b))%N;
  Buffer_ctor := fun data => data;
  Buffer_write :=
    fun _ data b => data ++ skipn (List.length data) b;
  Isosurface := unit;
  Isosurface_default := tt;
  Isosurface_ctor := fun _ => tt;
  generateMesh := fun ps _ _ iso => (ps, iso);
  margin := 2;
  radius := F32.of_Z 1;
  Engine := Z;
  default_random_engine := fun seed => seed;
  uniform_real_distribution := fun lo _ e => (lo, (e + 1)%Z);
  argument_order := ZYX;
  Mat4 := float;
  mat4_diag := fun f => f;
  ShaderProgram := bool;
  ShaderProgram_default := false;
  surface_program := true;
  Camera := unit;
  Camera_default := tt;
  getPerspective := fun _ fov _ _ => fov;
  lookAt := fun _ _ _ c => c;
  view_translated := fun _ t => x t
|}.

Definition config : Config := mkConfig true 24 3.

Definition surface : ivec2 := mkivec2 1080 1920.

Definition clock (i : nat) : Z := 1000 + Z.of_nat i.

(** One iteration of the loop whose global timer reads 1000 ms, so that it
    ends with a log line. *)
Definition one_iteration : list Action :=
  [ ALogic F32.zero; ALogic F32.zero; ALogic F32.zero; ALogic F32.zero;
    ALogic (F32.of_Z 7); ALogic F32.zero; ALogic (F32.of_Z 9);
    ALogic F32.zero; ALogic (F32.of_Z 1000); ALogic F32.zero ].

(** The game that the constructor returns on these inputs, and the run of
    that one iteration. *)
Definition game0 : @Game collab :=
  Eval vm_compute in
    match Game_ctor (collab := collab) config surface clock with
    | Done s => s
    | _ => Game_members
    end.

Definition trace0 : list (@Event collab) :=
  Eval vm_compute in
    match run one_iteration (spawn game0) with
    | Some (tr, _) => tr
    | None => []
    end.

Definition world0 : @World collab :=
  Eval vm_compute in
    match run one_iteration (spawn game0) with
    | Some (_, w) => w
    | None => spawn game0
    end.

(** A run in which the sensors report an acceleration before the first
    update. *)
Definition tilted : vec3 := mkvec3 (F32.of_Z 1) (F32.of_Z 2) (F32.of_Z 3).

Definition tilt : list Action :=
  [ ALogic F32.zero; ASensors (mkvec3 F32.zero F32.zero F32.zero);
    ASensors tilted; ALogic F32.zero; ALogic F32.zero; ALogic F32.zero ].

Definition trace_tilt : list (@Event collab) :=
  Eval vm_compute in
    match run tilt (spawn game0) with
    | Some (tr, _) => tr
    | None => []
    end.

Definition world_tilt : @World collab :=
  Eval vm_compute in
    match run tilt (spawn game0) with
    | Some (_, w) => w
    | None => spawn game0
    end.




End Demo.

(** Sample particles for src/physics.h. *)
Module Samples.

Import Physics.

Definition p : Particle :=
  mkParticle (mkvec2 (F32.of_Z 3) (F32.of_Z 0)) vec2_zero vec2_zero
    (F32.of_Z 1).

Definition q : Particle :=
  mkParticle (mkvec2 (F32.of_Z 0) (F32.of_Z 4)) vec2_zero vec2_zero
    (F32.of_Z 1).

Definition ops : list ParticleOp :=
  [ OpApplyForce (mkvec2 F32.zero (F32.of_Z (-10)));
    OpMove F32.lit_0_01; OpSetPosition vec2_zero ].

End Samples.

(** ** src/physics.h: [class Physics] *)

Module PhysicsClass.

(** [glm::uvec2]. *)
Record uvec2 : Set := mkuvec2 { ux : N; uy : N }.

(** [class Grid]: the cells behind the shared pointer and the size. *)
Record Grid : Set := mkGrid {
  cells : list Physics.GridCell;
  size : uvec2
}.

(** [class Physics]: the private members [count], [dt], [plist], [grid]
    (physics.h, lines 96-101). *)
Record Physics : Set := mkPhysics {
  count : N;
  dt : float;
  plist : list Physics.Particle;
  grid : Grid
}.

(** [plist.push_back(p)]. *)
Definition push_back (p : Physics.Particle) (ph : Physics) : Physics :=
  mkPhysics (count ph) (dt ph) (plist ph ++ [p]) (grid ph).

Section Init.

(** The generator is any callable: it may carry a state of its own, which a
    call can change. *)
Variable G : Type.
Variable gen : G -> N -> Physics.Particle * G.

(** The loop of [Physics::init] (physics.h, lines 86-87), from index [i];
    [fuel] bounds the number of iterations. *)
Fixpoint init_loop (fuel : nat) (i : N) (g : G) (ph : Physics)
    : Physics * G :=
  match fuel with
  | O => (ph, g)
  | S fuel' =>
      if (i <? count ph)%N
      then
        let '(p, g') := gen g i in
        init_loop fuel' (wrap_size (i + 1)) g' (push_back p ph)
      else (ph, g)
  end.

(** [Physics::init] (physics.h, lines 84-88).  The loop makes at most
    [count] iterations. *)
Definition init (g : G) (ph : Physics) : Physics * G :=
  init_loop (N.to_nat (count ph)) 0 g ph.

End Init.

(** The indices [0 .. n-1], in increasing order. *)
Definition indices (n : N) : list N := map N.of_nat (seq 0 (N.to_nat n)).

(** A generator that returns [f i] and keeps a record of the indices it was
    called with. *)
Definition recording (f : N -> Physics.Particle) (calls : list N) (i : N)
    : Physics.Particle * list N :=
  (f i, calls ++ [i]).

End PhysicsClass.

(** ** Further observations on the runs of b2/src/game.cpp *)

Module B2Runs.

Import B2.

Section Runs.

Context {collab : Collaborators}.

Definition is_update (e : Event) : bool :=
  match e with EvUpdate _ _ _ => true | _ => false end.

Definition is_swap (e : Event) : bool :=
  match e with EvSwap _ => true | _ => false end.

Definition is_present (e : Event) : bool :=
  match e with EvPresent => true | _ => false end.

Definition count_updates (tr : list Event) : nat :=
  List.length (filter is_update tr).

Definition count_swaps (tr : list Event) : nat :=
  List.length (filter is_swap tr).

Definition count_presents (tr : list Event) : nat :=
  List.length (filter is_present tr).

(** An update whose mesh is not published yet. *)
Definition pending (l : Label) : nat :=
  match l with
  | L_PTime | L_Swap => 1
  | _ => 0
  end.

(** The statements at which the local [singleThread] of the current
    iteration has been read. *)
Definition has_read_mode (l : Label) : bool :=
  match l with
  | L_Update | L_PTime | L_Swap | L_RTime | L_Frames | L_Elapsed
  | L_Check => true
  | L_Entry | L_While | L_Timer | L_Return => false
  end.

(** The statements between [++frames] and the check. *)
Definition has_counted (l : Label) : bool :=
  match l with
  | L_Elapsed | L_Check => true
  | _ => false
  end.

(** The cloud after the updates that [tr] shows, applied in order. *)
Definition cloud_after (tr : list Event) (c : Cloud) : Cloud :=
  fold_left
    (fun c e =>
       match e with
       | EvUpdate acc dt single => Cloud_update acc dt single c
       | _ => c
       end)
    tr c.

(** A list of frame operations made of clear-then-draw pairs, each draw
    with at least one vertex. *)
Fixpoint frames_ok (ops : list FrameOp) : bool :=
  match ops with
  | [] => true
  | ClearColorDepth :: DrawTriangles n :: rest =>
      (0 <? n)%N && frames_ok rest
  | _ => false
  end.

Definition count_draws (ops : list FrameOp) : nat :=
  List.length
    (filter (fun o => match o with DrawTriangles _ => true | _ => false end)
       ops).

(** The modelview matrix that [presentScene] uploads for a game. *)
Definition modelview_of (s : Game) : Mat4 :=
  view_translated (camera s)
    (vec3_scale
       (vec3_opp
          (vec3_of_ivec3 (ivec3_add (gridSize s) (ivec3_splat margin))))
       F32.lit_0_5).

(** The acceleration slot and the cloud after the calls that [tr] shows:
    a sensor event overwrites the slot, an update runs the cloud with the
    value that the slot holds. *)
Definition drive (tr : list Event) (start : vec3 * Cloud) : vec3 * Cloud :=
  fold_left
    (fun vc e =>
       match e with
       | EvSensors u => (u, snd vc)
       | EvUpdate _ dt single =>
           (fst vc, Cloud_update (fst vc) dt single (snd vc))
       | _ => vc
       end)
    tr start.

(** The cloud after the updates that [tr] shows, each run with the time
    step 0.01f. *)
Definition cloud_stepped (tr : list Event) (c : Cloud) : Cloud :=
  fold_left
    (fun c e =>
       match e with
       | EvUpdate acc _ single => Cloud_update acc F32.lit_0_01 single c
       | _ => c
       end)
    tr c.








(** The destructor, with one statement of the logic thread for each of
    [deltas] between the store and the join. *)
Definition destroy (deltas : list float) : list Action :=
  ADtorStore :: map ALogic deltas ++ [ADtorJoin].

End Runs.

End B2Runs.

(** Further concrete inputs. *)
Module Demo2.

Import B2.

(** A run with two presentations, before and after the first mesh is
    published. *)
Definition present_twice : list Action :=
  AUpdate :: Demo.one_iteration ++ [AUpdate].

Definition trace_present : list (@Event Demo.collab) :=
  Eval vm_compute in
    match run present_twice (spawn Demo.game0) with
    | Some (tr, _) => tr
    | None => []
    end.

Definition world_present : @World Demo.collab :=
  Eval vm_compute in
    match run present_twice (spawn Demo.game0) with
    | Some (_, w) => w
    | None => spawn Demo.game0
    end.

(** The mesh that the iteration of [Demo.one_iteration] publishes. *)
Definition mesh0 : @Mesh Demo.collab :=
  Eval vm_compute in
    match nth 5 Demo.trace0 EvEnter with
    | EvSwap m => m
    | _ => []
    end.

(** The game between [initLogicThread] and [initRender]. *)
Definition game_logic : @Game Demo.collab :=
  Eval vm_compute in
    match
      initLogicThread (collab := Demo.collab) Demo.surface 24 3 Demo.clock
        Game_members
    with
    | Done s => s
    | _ => Game_members
    end.

Definition physics0 : PhysicsClass.Physics :=
  PhysicsClass.mkPhysics 3 F32.lit_0_01 [Samples.p]
    (PhysicsClass.mkGrid [] (PhysicsClass.mkuvec2 4 4)).

Definition at_index (i : N) : Physics.Particle :=
  Physics.mkParticle
    (Physics.mkvec2 (F32.of_Z (Z.of_N i)) F32.zero)
    Physics.vec2_zero Physics.vec2_zero (F32.of_Z 1).

End Demo2.

(** * Facts about the literals *)

Module F32Facts.

(** The literals are the correctly rounded quotients of their decimal
    digits. *)
Lemma literals_rounded :
  F32.lit_0_5 = F32.div (F32.of_Z 1) (F32.of_Z 2) /\
  F32.lit_0_01 = F32.div (F32.of_Z 1) (F32.of_Z 100) /\
  F32.lit_9_8 = F32.div (F32.of_Z 98) (F32.of_Z 10) /\
  F32.lit_1000 = F32.of_Z 1000.
Proof. repeat split. Qed.

Lemma to_int32_truncates :
  F32.to_int32 (F32.div (F32.of_Z 128) (F32.of_Z 3)) = Some 42%Z /\
  F32.to_int32 (F32.div (F32.of_Z (-128)) (F32.of_Z 3)) = Some (-42)%Z /\
  F32.to_int32 (F32.div (F32.of_Z 1) (F32.of_Z 0)) = None /\
  F32.to_int32 (F32.of_Z (2 ^ 31)) = None.
Proof. repeat split. Qed.

End F32Facts.

(** * Facts about src/physics.h *)

Module PhysicsFacts.

Import Physics.

Lemma run_op_mass (o : ParticleOp) (p : Particle) :
  mass (run_op o p) = mass p.
Proof.
  destruct o as [v | v | f | dt | rad other]; simpl; try reflexivity.
  unfold intersect.
  destruct (F32.ltb _ _); reflexivity.
Qed.

Lemma run_ops_mass (ops : list ParticleOp) (p : Particle) :
  mass (run_ops ops p) = mass p.
Proof.
  unfold run_ops.
  revert p.
  induction ops as [| o ops IH]; intro p; simpl.
  - reflexivity.
  - rewrite IH. apply run_op_mass.
Qed.

(** A value-initialised [Particle()] has mass 0, which is not positive. *)
Lemma Particle_value_init_mass :
  F32.ltb F32.zero (mass Particle_value_init) = false.
Proof. reflexivity. Qed.

(** C4, as stated: the position, the previous position and the force
    accumulator of every particle are 3-component vectors.  The header
    declares them as [glm::vec2]: they have two components. *)
Lemma Particle_vectors_not_vec3 :
  ~ (forall p : Particle,
       List.length (components (pos p)) = 3%nat /\
       List.length (components (prev p)) = 3%nat /\
       List.length (components (forces p)) = 3%nat).
Proof.
  intro H.
  destruct (H Particle_value_init) as [H3 _].
  simpl in H3. discriminate H3.
Qed.

(** C4, amended: a [Particle] is exactly a position, a previous position and
    a force accumulator, each a 2-component vector, and a float mass; no
    operation on a particle changes its mass, so a mass that is positive
    when the particle is created stays positive. *)
Theorem Particle_fields_and_mass (p : Particle) (ops : list ParticleOp) :
  p = mkParticle (mkvec2 (x (pos p)) (y (pos p)))
                 (mkvec2 (x (prev p)) (y (prev p)))
                 (mkvec2 (x (forces p)) (y (forces p)))
                 (mass p) /\
  List.length (components (pos p)) = 2%nat /\
  List.length (components (prev p)) = 2%nat /\
  List.length (components (forces p)) = 2%nat /\
  mass (run_ops ops p) = mass p /\
  (F32.ltb F32.zero (mass p) = true ->
   F32.ltb F32.zero (mass (run_ops ops p)) = true).
Proof.
  repeat split.
  - destruct p as [[px py] [qx qy] [fx fy] m]. reflexivity.
  - apply run_ops_mass.
  - intro Hpos. rewrite run_ops_mass. exact Hpos.
Qed.

Lemma Particle_fields_and_mass_witness :
  F32.ltb F32.zero (mass Samples.p) = true /\
  F32.ltb F32.zero (mass (run_ops Samples.ops Samples.p)) = true.
Proof.
  split.
  - reflexivity.
  - apply (Particle_fields_and_mass Samples.p Samples.ops). reflexivity.
Defined.

(** C5: [intersect] answers true exactly when the Euclidean distance of the
    two positions is below the sum of the radii; on true it reports the
    separation vector and the overlap, radius sum minus distance; and the
    receiver is the same particle afterwards (the argument is passed as
    [const &]). *)
Theorem intersect_pure_query (rad : float) (self other : Particle)
    (dist0 : vec2) (diff0 : float) :
  let res := intersect rad self other dist0 diff0 in
  let distance := Physics.length (vec2_sub (pos other) (pos self)) in
  (ret res = true <-> F32.ltb distance (F32.add rad rad) = true) /\
  (ret res = true ->
     outDist res = vec2_sub (pos other) (pos self) /\
     outDiff res = F32.sub (F32.add rad rad) distance) /\
  self_after res = self.
Proof.
  intros res distance.
  subst res distance.
  unfold intersect, separation, radius_sum.
  destruct (F32.ltb _ _) eqn:Hlt; simpl.
  - repeat split; reflexivity.
  - split; [split; intro H; exact H |].
    split; [intro H; discriminate H | reflexivity].
Qed.

Lemma intersect_pure_query_witness :
  ret (intersect (F32.of_Z 3) Samples.p Samples.q vec2_zero F32.zero)
    = true /\
  outDist (intersect (F32.of_Z 3) Samples.p Samples.q vec2_zero F32.zero)
    = mkvec2 (F32.of_Z (-3)) (F32.of_Z 4) /\
  outDiff (intersect (F32.of_Z 3) Samples.p Samples.q vec2_zero F32.zero)
    = F32.of_Z 1.
Proof.
  assert (Hret : ret (intersect (F32.of_Z 3) Samples.p Samples.q vec2_zero
                        F32.zero) = true) by reflexivity.
  split; [exact Hret |].
  destruct (intersect_pure_query (F32.of_Z 3) Samples.p Samples.q vec2_zero
              F32.zero) as [_ [Hout _]].
  destruct (Hout Hret) as [Hd Hf].
  split.
  - rewrite Hd. reflexivity.
  - rewrite Hf. reflexivity.
Defined.

Lemma store_length (a : list ParticlePtr) (n : nat) (v : ParticlePtr) :
  (n < List.length a)%nat ->
  List.length (firstn n a ++ v :: skipn (S n) a) = List.length a.
Proof.
  intro Hlt.
  rewrite length_app. cbn [List.length].
  rewrite firstn_length_le, length_skipn by lia.
  lia.
Qed.

Lemma array_store_length (a a' : list ParticlePtr) (i : N) (v : ParticlePtr) :
  array_store a i v = Some a' -> List.length a' = List.length a.
Proof.
  unfold array_store.
  destruct (N.ltb_spec i (N.of_nat (List.length a))) as [Hlt | Hge];
    [| discriminate].
  intro H.
  assert (Ha : a' = firstn (N.to_nat i) a ++ v :: skipn (S (N.to_nat i)) a)
    by congruence.
  rewrite Ha. apply store_length. lia.
Qed.

Lemma push_ok (p : ParticlePtr) (c : GridCell) :
  cell_ok c -> exists c', push p c = Some c' /\ cell_ok c'.
Proof.
  intros [Hcount Hlen].
  unfold push.
  destruct (N.ltb_spec (count c) DEFAULT_CELL_CAPACITY) as [Hlt | Hge].
  - destruct (array_store (particles c) (count c) p) as [a |] eqn:Hstore.
    + exists (mkGridCell (wrap_size (count c + 1)) a).
      split; [reflexivity |].
      split; simpl.
      * unfold wrap_size, SIZE_MOD, DEFAULT_CELL_CAPACITY in *.
        rewrite N.mod_small; lia.
      * rewrite (array_store_length _ _ _ Hstore). exact Hlen.
    + exfalso.
      unfold array_store in Hstore.
      destruct (N.ltb_spec (count c) (N.of_nat (List.length (particles c))))
        as [Hin | Hout]; [discriminate |].
      rewrite Hlen in Hout. lia.
  - exists c. split; [reflexivity | split; assumption].
Qed.

Lemma cell_op_ok (o : CellOp) (c : GridCell) :
  cell_ok c -> exists c', cell_op o c = Some c' /\ cell_ok c'.
Proof.
  intro Hok.
  destruct o as [p |]; simpl.
  - apply push_ok, Hok.
  - exists (clear c). split; [reflexivity |].
    destruct Hok as [_ Hlen].
    split; simpl; [unfold DEFAULT_CELL_CAPACITY; lia | exact Hlen].
Qed.

Lemma cell_ops_ok (ops : list CellOp) (c : GridCell) :
  cell_ok c -> exists c', cell_ops ops c = Some c' /\ cell_ok c'.
Proof.
  revert c.
  induction ops as [| o ops IH]; intros c Hok; simpl.
  - exists c. split; [reflexivity | exact Hok].
  - destruct (cell_op_ok o Hok) as [c1 [H1 Hok1]].
    rewrite H1. apply IH, Hok1.
Qed.

Lemma GridCell_new_ok : cell_ok GridCell_new.
Proof. split; [vm_compute; discriminate | reflexivity]. Qed.

(** C2: whatever pushes and clears a cell has seen since its construction,
    none of them wrote outside the array, the cell holds at most 32
    references, and a push into a cell that holds 32 returns the cell as it
    was. *)
Theorem GridCell_count_bounded (ops : list CellOp) :
  exists c,
    cell_ops ops GridCell_new = Some c /\
    (getCount c <= 32)%N /\
    (forall p, getCount c = 32%N -> push p c = Some c) /\
    (forall p, exists c', push p c = Some c' /\ (getCount c' <= 32)%N).
Proof.
  destruct (cell_ops_ok ops GridCell_new_ok) as [c [Hrun Hok]].
  exists c.
  split; [exact Hrun |].
  split; [exact (proj1 Hok) |].
  split.
  - intros p Hfull.
    unfold push, getCount in *.
    rewrite Hfull. reflexivity.
  - intro p.
    destruct (push_ok p Hok) as [c' [Hpush Hok']].
    exists c'. split; [exact Hpush | exact (proj1 Hok')].
Qed.

Lemma GridCell_count_bounded_witness :
  exists c,
    cell_ops (repeat (OpPush 7%N) 40) GridCell_new = Some c /\
    getCount c = 32%N /\
    push 9%N c = Some c.
Proof.
  destruct (GridCell_count_bounded (repeat (OpPush 7%N) 40))
    as [c [Hrun [_ [Hfull _]]]].
  exists c.
  assert (Hc : getCount c = 32%N).
  { vm_compute in Hrun. injection Hrun as <-. reflexivity. }
  split; [exact Hrun |].
  split; [exact Hc |].
  apply Hfull, Hc.
Defined.

End PhysicsFacts.

(** * Facts about b2/src/game.cpp *)

Module GameFacts.

Import B2 B2Runs.

Section Facts.

Context {collab : Collaborators}.

(** ** Runs *)

Lemma exec_cons (w w' w'' : World) (act : Action) (e : Event)
    (tr : list Event) :
  step act w = Some (e, w') -> exec w' tr w'' -> exec w (e :: tr) w''.
Proof.
  intros Hstep Hexec.
  induction Hexec as [w1 | w1 tr w2 act2 e2 w3 Hexec IH Hstep2].
  - apply (exec_snoc (tr := [])) with (w' := w) (act := act).
    + apply exec_nil.
    + exact Hstep.
  - change (e :: tr ++ [e2]) with ((e :: tr) ++ [e2]).
    apply exec_snoc with (w' := w2) (act := act2).
    + apply IH, Hstep.
    + exact Hstep2.
Qed.

Lemma run_exec (acts : list Action) (w w' : World) (tr : list Event) :
  run acts w = Some (tr, w') -> exec w tr w'.
Proof.
  revert w tr.
  induction acts as [| act acts IH]; intros w tr Hrun; simpl in Hrun.
  - injection Hrun as <- <-. apply exec_nil.
  - destruct (step act w) as [[e w1] |] eqn:Hstep; [| discriminate].
    destruct (run acts w1) as [[tr1 w2] |] eqn:Hrest; [| discriminate].
    injection Hrun as <- <-.
    apply exec_cons with (w' := w1) (act := act).
    + exact Hstep.
    + apply IH, Hrest.
Qed.

Lemma exec_snoc_inv (w0 w : World) (tr : list Event) (e : Event) :
  exec w0 (tr ++ [e]) w ->
  exists w' act, exec w0 tr w' /\ step act w' = Some (e, w).
Proof.
  intro Hexec.
  remember (tr ++ [e]) as l eqn:Heq.
  destruct Hexec as [w1 | w1 tr1 w' act e1 w2 Hpre Hstep].
  - destruct tr; discriminate.
  - apply app_inj_tail in Heq as [-> ->].
    exists w', act. split; assumption.
Qed.

Lemma exec_split (w0 w : World) (tr : list Event) :
  exec w0 tr w ->
  forall t1 e t2, tr = t1 ++ e :: t2 ->
  exists w1 w2 act,
    exec w0 t1 w1 /\ step act w1 = Some (e, w2) /\ exec w2 t2 w.
Proof.
  induction 1 as [w1 | w1 tr w2 act e' w3 Hexec IH Hstep];
    intros t1 e t2 Heq.
  - destruct t1; discriminate.
  - destruct (exists_last (l := e :: t2)) as [t2' [x Hlast]];
      [discriminate |].
    rewrite Hlast, app_assoc in Heq.
    apply app_inj_tail in Heq as [Htr Hx]. subst x.
    destruct t2' as [| y t2'].
    + simpl in Hlast. injection Hlast as -> ->.
      rewrite app_nil_r in Htr. subst tr.
      exists w2, w3, act.
      repeat split; [exact Hexec | exact Hstep | apply exec_nil].
    + simpl in Hlast. injection Hlast as -> ->.
      destruct (IH t1 y t2' Htr) as [u1 [u2 [act1 [H1 [H2 H3]]]]].
      exists u1, u2, act1.
      repeat split; [exact H1 | exact H2 |].
      apply exec_snoc with (w' := w2) (act := act); assumption.
Qed.

(** ** What a step does *)

Ltac break_match H :=
  repeat match type of H with
         | context [match ?c with _ => _ end] => destruct c eqn:?
         end.

Ltac step_inv H :=
  unfold step, logic_step in H;
  break_match H; try discriminate H;
  injection H as ? ?; subst.

Lemma presentScene_frame (s s' : Game) (gl gl' : GLState) :
  update s gl = (s', gl') ->
  acceleration s' = acceleration s /\ alive s' = alive s /\
  singleThread s' = singleThread s /\ logicThread s' = logicThread s /\
  mesh s' = mesh s.
Proof.
  unfold update, presentScene.
  destruct (size (MeshBuffer_get (mesh s)) =? 0)%N;
    intro H; injection H as <- <-; repeat split; reflexivity.
Qed.


Lemma step_acceleration (act : Action) (w w' : World) (e : Event) :
  step act w = Some (e, w') ->
  Acceleration_get (acceleration (game w')) =
  match e with
  | EvSensors v => v
  | _ => Acceleration_get (acceleration (game w))
  end.
Proof.
  intro H.
  destruct act; step_inv H; simpl; try congruence.
  match goal with
  | Hu : update _ _ = _ |- _ => apply presentScene_frame in Hu as [-> _]
  end.
  reflexivity.
Qed.

Lemma step_update (act : Action) (w w' : World) (a : vec3) (dt : float)
    (single : bool) :
  step act w = Some (EvUpdate a dt single, w') ->
  a = Acceleration_get (acceleration (game w)) /\ dt = F32.lit_0_01 /\
  single = st (locals w) /\
  particlesCloud (game w') =
    Cloud_update a dt single (particlesCloud (game w)).
Proof.
  intro H.
  destruct act; step_inv H.
  repeat split; reflexivity.
Qed.


Lemma presentScene_cloud (s s' : Game) (gl gl' : GLState) :
  update s gl = (s', gl') -> particlesCloud s' = particlesCloud s.
Proof.
  unfold update, presentScene.
  destruct (size (MeshBuffer_get (mesh s)) =? 0)%N;
    intro H; injection H as <- <-; reflexivity.
Qed.

Lemma step_particles (act : Action) (w w' : World) (e : Event) :
  step act w = Some (e, w') ->
  particlesCloud (game w') =
  match e with
  | EvUpdate acc dt single =>
      Cloud_update acc dt single (particlesCloud (game w))
  | _ => particlesCloud (game w)
  end.
Proof.
  intro H.
  destruct act; step_inv H; simpl; try reflexivity.
  match goal with
  | Hu : update _ _ = _ |- _ => apply presentScene_cloud in Hu
  end.
  assumption.
Qed.

Lemma drive_snoc (tr : list Event) (e : Event) (start : vec3 * Cloud) :
  drive (tr ++ [e]) start =
  match e with
  | EvSensors u => (u, snd (drive tr start))
  | EvUpdate _ dt single =>
      (fst (drive tr start),
       Cloud_update (fst (drive tr start)) dt single (snd (drive tr start)))
  | _ => drive tr start
  end.
Proof. unfold drive. rewrite fold_left_app. reflexivity. Qed.

Lemma cloud_stepped_snoc (tr : list Event) (e : Event) (c : Cloud) :
  cloud_stepped (tr ++ [e]) c =
  match e with
  | EvUpdate acc _ single =>
      Cloud_update acc F32.lit_0_01 single (cloud_stepped tr c)
  | _ => cloud_stepped tr c
  end.
Proof. unfold cloud_stepped. rewrite fold_left_app. reflexivity. Qed.

Lemma exec_drive (w0 w : World) (tr : list Event) :
  exec w0 tr w ->
  (Acceleration_get (acceleration (game w)), particlesCloud (game w)) =
  drive tr
    (Acceleration_get (acceleration (game w0)), particlesCloud (game w0)).
Proof.
  induction 1 as [w1 | w1 tr w2 act e w3 Hexec IH Hstep].
  - reflexivity.
  - rewrite drive_snoc, <- IH.
    rewrite (step_acceleration _ _ Hstep), (step_particles _ _ Hstep).
    destruct e; try reflexivity.
    apply step_update in Hstep as [-> _]. reflexivity.
Qed.

Lemma exec_stepped (w0 w : World) (tr : list Event) :
  exec w0 tr w ->
  particlesCloud (game w) = cloud_stepped tr (particlesCloud (game w0)).
Proof.
  induction 1 as [w1 | w1 tr w2 act e w3 Hexec IH Hstep].
  - reflexivity.
  - rewrite cloud_stepped_snoc, <- IH, (step_particles _ _ Hstep).
    destruct e; try reflexivity.
    apply step_update in Hstep as [_ [-> _]]. reflexivity.
Qed.

(** ** Construction *)

(** With the arguments evaluated from right to left, the first draw of a
    call is its [z] and the last its [x]. *)
Lemma generator_right_to_left (size : ivec3) (timestamp : Z) :
  argument_order = ZYX ->
  generator size timestamp =
  Particle_ctor
    (mkvec3
       (fst (draw size AxisX
               (snd (draw size AxisY
                       (snd (draw size AxisZ
                               (default_random_engine timestamp)))))))
       (fst (draw size AxisY
               (snd (draw size AxisZ (default_random_engine timestamp)))))
       (fst (draw size AxisZ (default_random_engine timestamp)))).
Proof.
  intro Horder.
  unfold generator. rewrite Horder.
  cbv beta iota delta [axes].
  destruct (draw size AxisZ (default_random_engine timestamp)) as [v1 e1].
  cbn [fst snd].
  destruct (draw size AxisY e1) as [v2 e2].
  cbn [fst snd].
  destruct (draw size AxisX e2) as [v3 e3].
  reflexivity.
Qed.



(** ** Presentation *)

(** C10: with an empty published mesh [update] returns at once: the game
    (and with it the vertex buffer) and the whole GL state, the vertex
    format, the program, the uniforms, the clear colour and the list of
    clears and draws, are as before. *)
Theorem presentScene_empty_mesh (s : Game) (gl : GLState) :
  MeshBuffer_get (mesh s) = [] ->
  update s gl = (s, gl) /\ presentScene s gl = (s, gl).
Proof.
  intro Hempty.
  unfold update, presentScene.
  rewrite Hempty. simpl.
  split; reflexivity.
Qed.

(** With a mesh to show, the same call ends in a clear and one draw of the
    mesh's vertices. *)
Lemma presentScene_draws (s s' : Game) (gl gl' : GLState) :
  MeshBuffer_get (mesh s) <> [] ->
  presentScene s gl = (s', gl') ->
  frameOps gl' =
    frameOps gl ++
    [ClearColorDepth; DrawTriangles (size (MeshBuffer_get (mesh s)))] /\
  clearColor gl' = clear_color /\
  program gl' = Some (shaderProgram s) /\
  arrayBuffer gl' = Some (surfaceVertices s').
Proof.
  intros Hmesh.
  unfold presentScene.
  destruct (MeshBuffer_get (mesh s)) as [| v m] eqn:Hget;
    [contradiction Hmesh; reflexivity |].
  assert (Hsize : (size (v :: m) =? 0)%N = false).
  { apply N.eqb_neq. unfold size. simpl. lia. }
  rewrite Hsize.
  intro H. injection H as <- <-.
  repeat split; reflexivity.
Qed.

(** ** The acceleration slot *)

Lemma latest_snoc (tr : list Event) (e : Event) (v0 : vec3) :
  latest (tr ++ [e]) v0 =
  match e with EvSensors v => v | _ => latest tr v0 end.
Proof.
  unfold latest. rewrite fold_left_app. reflexivity.
Qed.

Lemma exec_latest (w0 w : World) (tr : list Event) :
  exec w0 tr w ->
  Acceleration_get (acceleration (game w)) =
  latest tr (Acceleration_get (acceleration (game w0))).
Proof.
  induction 1 as [w1 | w1 tr w2 act e w3 Hexec IH Hstep].
  - reflexivity.
  - rewrite latest_snoc, (step_acceleration _ _ Hstep), IH.
    reflexivity.
Qed.

Lemma Game_ctor_acceleration (config : Config) (surfaceSize : ivec2)
    (clock : nat -> Z) (s : Game) :
  Game_ctor config surfaceSize clock = Done s ->
  Acceleration_get (acceleration s) = default_acceleration.
Proof.
  unfold Game_ctor, initLogicThread, _assert.
  destruct (0 <? config_gridWidth config)%N; [| discriminate].
  destruct (0 <? config_particlesCount config)%N; [| discriminate].
  destruct (gridHeight surfaceSize (config_gridWidth config));
    [| discriminate].
  intro H. injection H as <-. reflexivity.
Qed.

(** The world that a successful construction leaves is one in which the
    logic thread is about to enter its routine. *)
Lemma Game_ctor_started (config : Config) (surfaceSize : ivec2)
    (clock : nat -> Z) (s : Game) :
  Game_ctor config surfaceSize clock = Done s -> started (spawn s).
Proof.
  unfold Game_ctor, initLogicThread, _assert.
  destruct (0 <? config_gridWidth config)%N; [| discriminate].
  destruct (0 <? config_particlesCount config)%N; [| discriminate].
  destruct (gridHeight surfaceSize (config_gridWidth config));
    [| discriminate].
  intro H. injection H as <-.
  repeat split.
Qed.


(** ** The protocol of an iteration *)

Lemma observe_stuck (tr : list Event) : fold_left observe tr None = None.
Proof. induction tr as [| e tr IH]; [reflexivity | exact IH]. Qed.

Lemma protocol_snoc (tr : list Event) (e : Event) :
  protocol (tr ++ [e]) = observe (protocol tr) e.
Proof. unfold protocol. rewrite fold_left_app. reflexivity. Qed.

Lemma protocol_app (t1 t2 : list Event) :
  protocol (t1 ++ t2) = fold_left observe t2 (protocol t1).
Proof. unfold protocol. apply fold_left_app. Qed.

Lemma step_protocol (act : Action) (w w' : World) (e : Event) :
  step act w = Some (e, w') ->
  observe (Some (phase_at (pc (locals w)))) e =
  Some (phase_at (pc (locals w'))).
Proof.
  intro H.
  destruct act; step_inv H; simpl;
    repeat match goal with
           | Hpc : pc (locals _) = _ |- _ => rewrite Hpc; clear Hpc
           end;
    try reflexivity;
    destruct (pc (locals w)); reflexivity.
Qed.

Lemma exec_protocol (w0 w : World) (tr : list Event) :
  phase_at (pc (locals w0)) = Idle ->
  exec w0 tr w ->
  protocol tr = Some (phase_at (pc (locals w))).
Proof.
  intros Hidle Hexec.
  induction Hexec as [w1 | w1 tr w2 act e w3 Hexec IH Hstep].
  - unfold protocol. simpl. rewrite Hidle. reflexivity.
  - rewrite protocol_snoc, (IH Hidle).
    apply (step_protocol _ _ Hstep).
Qed.

Lemma observe_quiet (p : Phase) (e : Event) :
  is_protocol_event e = false -> observe (Some p) e = Some p.
Proof.
  destruct e; simpl; try discriminate; intros _; destruct p; reflexivity.
Qed.





Lemma entered_to_idle (tr : list Event) :
  fold_left observe tr (Some Entered) = Some Idle ->
  exists u1 acc dt single u2, tr = u1 ++ EvUpdate acc dt single :: u2.
Proof.
  induction tr as [| e tr IH]; intro H.
  - discriminate H.
  - cbn [fold_left] in H.
    destruct (is_protocol_event e) eqn:He.
    + destruct e as [| flag | | acc dt single | | | | | | | | | | |];
        try discriminate He.
      * destruct flag; simpl in H; rewrite observe_stuck in H;
          discriminate H.
      * exists [], acc, dt, single, tr. reflexivity.
      * simpl in H. rewrite observe_stuck in H. discriminate H.
    + rewrite (observe_quiet Entered _ He) in H.
      destruct (IH H) as [u1 [acc [dt [single [u2 ->]]]]].
      exists (e :: u1), acc, dt, single, u2. reflexivity.
Qed.

(** ** Invariants of a run *)


Lemma step_owner (act : Action) (w w' : World) (e : Event) :
  step act w = Some (e, w') ->
  (owner w' = owner w \/ e = EvDtorStore \/ owner w = Joining) /\
  (e = EvDtorJoin -> owner w = Joining /\ pc (locals w) = L_Return) /\
  (pc (locals w') = L_Return ->
   pc (locals w) = L_Return \/ e = EvAlive false) /\
  (logicThread (game w') = logicThread (game w) \/
   pc (locals w') = L_Return).
Proof.
  intro H.
  destruct act; step_inv H; simpl;
    repeat split; try (intro; discriminate); try tauto; try congruence;
    try (left; reflexivity).
  all: match goal with
       | Hu : update _ _ = _ |- _ => apply presentScene_frame in Hu
       end; tauto.
Qed.



Lemma exec_running (w0 w : World) (tr : list Event) :
  logicThread (game w0) = Running -> exec w0 tr w ->
  pc (locals w) <> L_Return -> logicThread (game w) = Running.
Proof.
  intros Hrun Hexec.
  induction Hexec as [w1 | w1 tr w2 act e w3 Hexec IH Hstep]; intro Hpc.
  - exact Hrun.
  - destruct (step_owner _ _ Hstep) as [_ [_ [Hret [Hsame | Hr]]]];
      [| contradiction].
    rewrite Hsame. apply (IH Hrun).
    intro Hold.
    assert (Hstay : pc (locals w3) = L_Return); [| contradiction].
    clear - Hstep Hold.
    destruct act; step_inv Hstep; simpl; congruence.
Qed.

(** ** The acceleration handed to the update *)

(** C7: the slot holds (0, -9.8, 0) when the constructor returns;
    [onSensorsEvent] overwrites it with its argument; at any moment of a run
    it holds the argument of the latest call, or the default if there was
    none; every update of the cloud is handed the value the slot holds at
    that moment; and the cloud is, at any moment, the constructed cloud run
    through its update once per update of the trace, each time with the
    value that the sensor events before it have left in the slot. *)
Theorem acceleration_latest_value (config : Config) (surfaceSize : ivec2)
    (clock : nat -> Z) (s : Game) (tr : list Event) (w : World) :
  Game_ctor config surfaceSize clock = Done s ->
  exec (spawn s) tr w ->
  Acceleration_get (acceleration s) =
    mkvec3 (S754_zero false) (S754_finite true 10276045 (-20))
           (S754_zero false) /\
  (forall v s', Acceleration_get (acceleration (onSensorsEvent v s')) = v) /\
  Acceleration_get (acceleration (game w)) =
    latest tr default_acceleration /\
  (forall tr1 acc dt single tr2,
     tr = tr1 ++ EvUpdate acc dt single :: tr2 ->
     acc = latest tr1 default_acceleration) /\
  (Acceleration_get (acceleration (game w)), particlesCloud (game w)) =
    drive tr (default_acceleration, particlesCloud s) /\
  (forall delta,
     pc (locals w) = L_Update ->
     logic_step delta w =
     Some (EvUpdate (latest tr default_acceleration) F32.lit_0_01
             (st (locals w)),
           mkWorld
             (set_particlesCloud
                (Cloud_update (latest tr default_acceleration)
                   F32.lit_0_01 (st (locals w))
                   (particlesCloud (game w)))
                (game w))
             (at_label L_PTime (locals w)) (owner w) (glstate w))).
Proof.
  intros Hctor Hexec.
  pose proof (Game_ctor_acceleration _ _ _ Hctor) as Hdefault.
  assert (Hslot : Acceleration_get (acceleration (game w)) =
                  latest tr default_acceleration).
  { rewrite (exec_latest Hexec). simpl. rewrite Hdefault. reflexivity. }
  split; [exact Hdefault |].
  split; [reflexivity |].
  split; [exact Hslot |].
  split; [| split].
  - intros tr1 acc dt single tr2 Heq.
    destruct (exec_split Hexec _ _ _ Heq) as [w1 [w2 [act [H1 [H2 _]]]]].
    apply step_update in H2 as [-> _].
    rewrite (exec_latest H1). simpl. rewrite Hdefault. reflexivity.
  - rewrite (exec_drive Hexec). simpl. rewrite Hdefault. reflexivity.
  - intros delta Hpc.
    destruct (Game_ctor_started _ _ _ Hctor) as [_ [_ [_ Hrun]]].
    unfold logic_step.
    rewrite (exec_running Hrun Hexec) by congruence.
    rewrite Hpc, Hslot. reflexivity.
Qed.

(** ** Shutdown *)


Lemma logic_step_successor (delta : float) (w : World) :
  logicThread (game w) = Running ->
  pc (locals w) <> L_Return ->
  exists e w',
    logic_step delta w = Some (e, w') /\
    pc (locals w') = successor (alive (game w)) (pc (locals w)) /\
    alive (game w') = alive (game w) /\
    logicThread (game w') = Running.
Proof.
  intros Hrun Hpc.
  unfold logic_step. rewrite Hrun.
  destruct (pc (locals w)) eqn:Hl; try contradiction;
    try (eexists; eexists; repeat split; simpl; eassumption || reflexivity).
  - destruct (generateMesh _ _ _ _) as [m iso].
    eexists; eexists; repeat split; simpl; eassumption || reflexivity.
  - destruct (F32.leb _ _);
      eexists; eexists; repeat split; simpl; eassumption || reflexivity.
Qed.

Lemma cleared_returns (n : nat) :
  forall (w : World) (deltas : list float),
    alive (game w) = false ->
    (pc (locals w) <> L_Return -> logicThread (game w) = Running) ->
    (distance (pc (locals w)) <= n)%nat ->
    (n <= List.length deltas)%nat ->
    exists k tr' w',
      (k <= n)%nat /\
      run (map ALogic (firstn k deltas)) w = Some (tr', w') /\
      pc (locals w') = L_Return.
Proof.
  induction n as [| n IH]; intros w deltas Hflag Hthread Hdist Hlen.
  - exists 0%nat, [], w.
    repeat split; [lia |].
    destruct (pc (locals w)); simpl in Hdist; try lia; reflexivity.
  - destruct (pc (locals w)) eqn:Hl;
      try (exists 0%nat, [], w; repeat split; [lia | exact Hl]).
    all: destruct deltas as [| d ds]; [simpl in Hlen; lia |].
    all: destruct (logic_step_successor d w)
           as [e [w1 [Hstep [Hpc1 [Hflag1 Hrun1]]]]];
         [apply Hthread; congruence | congruence |].
    all: rewrite Hflag, Hl in Hpc1; simpl in Hpc1.
    all: destruct (IH w1 ds) as [k [tr1 [w2 [Hk [Hrun2 Hret]]]]];
         [ congruence | intros _; exact Hrun1
         | rewrite Hpc1; simpl in *; lia | simpl in Hlen; lia | ].
    all: exists (S k), (e :: tr1), w2.
    all: repeat split; [lia | | exact Hret].
    all: simpl; rewrite Hstep, Hrun2; reflexivity.
Qed.

(** Once the flag is cleared the loop is at most nine of its statements
    away from its return, whatever the timers read. *)
Lemma logicRoutine_returns (w0 w : World) (tr : list Event)
    (deltas : list float) :
  started w0 ->
  exec w0 tr w ->
  alive (game w) = false ->
  (9 <= List.length deltas)%nat ->
  exists k tr' w',
    (k <= 9)%nat /\
    run (map ALogic (firstn k deltas)) w = Some (tr', w') /\
    pc (locals w') = L_Return.
Proof.
  intros [Hentry [Hlive [Halive Hrun]]] Hexec Hflag Hlen.
  apply cleared_returns; try assumption.
  - apply (exec_running Hrun Hexec).
  - destruct (pc (locals w)); simpl; lia.
Qed.

(** ** The time step *)

Lemma fold_accepted (tr : list Event) (q : option Phase) (p : Phase) :
  fold_left observe tr q = Some p -> exists p', q = Some p'.
Proof.
  destruct q as [p' |]; [exists p'; reflexivity |].
  rewrite observe_stuck. discriminate.
Qed.

Lemma flag_read_accepted (q : option Phase) (flag : bool) (p : Phase) :
  observe q (EvAlive flag) = Some p ->
  q = Some Idle /\ p = (if flag then Entered else Stopped).
Proof.
  destruct q as [[| | |] |]; destruct flag; simpl; try discriminate;
    intro H; injection H as <-; split; reflexivity.
Qed.

Lemma exec_update_dt (w0 w : World) (tr : list Event) :
  exec w0 tr w ->
  forall acc dt single, In (EvUpdate acc dt single) tr -> dt = F32.lit_0_01.
Proof.
  intros Hexec acc dt single Hin.
  apply in_split in Hin as [t1 [t2 Heq]].
  destruct (exec_split Hexec _ _ _ Heq) as [w1 [w2 [act [_ [Hstep _]]]]].
  apply step_update in Hstep. tauto.
Qed.

(** C9: every update of the cloud in a run is called with dt = 0.01f;
    every iteration, from a flag read that returned true to the next flag
    read, contains such an update; at the update statement the cloud is
    replaced by its update with 0.01f, whatever the timers have read or
    will read; and the cloud is, at any moment, the initial cloud run
    through its update with 0.01f once per update of the trace. *)
Theorem update_fixed_time_step (w0 w : World) (tr : list Event) :
  started w0 ->
  exec w0 tr w ->
  (forall acc dt single,
     In (EvUpdate acc dt single) tr ->
     dt = S754_finite false 10737418 (-30)) /\
  (forall t1 t2 flag t3,
     tr = t1 ++ EvAlive true :: t2 ++ EvAlive flag :: t3 ->
     exists u1 acc single u2,
       t2 = u1 ++ EvUpdate acc F32.lit_0_01 single :: u2) /\
  (forall delta,
     pc (locals w) = L_Update ->
     logic_step delta w =
     Some (EvUpdate (Acceleration_get (acceleration (game w)))
             F32.lit_0_01 (st (locals w)),
           mkWorld
             (set_particlesCloud
                (Cloud_update (Acceleration_get (acceleration (game w)))
                   (S754_finite false 10737418 (-30)) (st (locals w))
                   (particlesCloud (game w)))
                (game w))
             (at_label L_PTime (locals w)) (owner w) (glstate w))) /\
  particlesCloud (game w) = cloud_stepped tr (particlesCloud (game w0)).
Proof.
  intros [Hentry [Hlive [Halive Hrun]]] Hexec.
  assert (Hidle : phase_at (pc (locals w0)) = Idle)
    by (rewrite Hentry; reflexivity).
  split; [| split; [| split]].
  - intros acc dt single Hin.
    apply (exec_update_dt Hexec _ _ _ Hin).
  - intros t1 t2 flag t3 Heq.
    pose proof (exec_protocol Hidle Hexec) as Hproto.
    rewrite Heq, protocol_app in Hproto.
    cbn [fold_left] in Hproto.
    rewrite fold_left_app in Hproto.
    cbn [fold_left] in Hproto.
    apply fold_accepted in Hproto as [p2 Hp2].
    apply flag_read_accepted in Hp2 as [Hmid _].
    destruct (fold_accepted _ _ Hmid) as [p1 Hp1].
    rewrite Hp1 in Hmid.
    apply flag_read_accepted in Hp1 as [_ ->].
    destruct (entered_to_idle _ Hmid) as [u1 [acc [dt [single [u2 Ht2]]]]].
    exists u1, acc, single, u2.
    assert (Hdt : dt = F32.lit_0_01).
    { apply (exec_update_dt Hexec acc dt single).
      rewrite Heq, Ht2.
      apply in_or_app. right. right.
      apply in_or_app. left.
      apply in_or_app. right. left. reflexivity. }
    rewrite <- Hdt. exact Ht2.
  - intros delta Hpc.
    unfold logic_step.
    rewrite (exec_running Hrun Hexec) by congruence.
    rewrite Hpc.
    reflexivity.
  - apply (exec_stepped Hexec).
Qed.

(** ** The timing log *)

Lemma interval_snoc (tr : list Event) (e : Event) :
  interval (tr ++ [e]) =
  match e with EvInfo _ _ => [] | _ => interval tr ++ [e] end.
Proof. unfold interval. rewrite fold_left_app. reflexivity. Qed.

Lemma iterations_snoc (iv : list Event) (e : Event) :
  iterations (iv ++ [e]) =
  match e with EvFrame => (iterations iv + 1)%N | _ => iterations iv end.
Proof. unfold iterations. rewrite fold_left_app. reflexivity. Qed.

Lemma elapsed_total_snoc (iv : list Event) (e : Event) :
  elapsed_total (iv ++ [e]) =
  match e with
  | EvElapsed d => F32.add (elapsed_total iv) d
  | _ => elapsed_total iv
  end.
Proof. unfold elapsed_total. rewrite fold_left_app. reflexivity. Qed.

Lemma physics_total_snoc (iv : list Event) (e : Event) :
  physics_total (iv ++ [e]) =
  match e with
  | EvPhysicsTime d => F32.add (physics_total iv) d
  | _ => physics_total iv
  end.
Proof. unfold physics_total. rewrite fold_left_app. reflexivity. Qed.

Lemma render_total_snoc (iv : list Event) (e : Event) :
  render_total (iv ++ [e]) =
  match e with
  | EvRenderTime d => F32.add (render_total iv) d
  | _ => render_total iv
  end.
Proof. unfold render_total. rewrite fold_left_app. reflexivity. Qed.

Lemma wrap_size_succ (n : N) :
  wrap_size (wrap_size n + 1) = wrap_size (n + 1).
Proof.
  unfold wrap_size.
  apply N.Div0.add_mod_idemp_l.
Qed.

Lemma totals_snoc (iv : list Event) (e : Event) :
  totals (iv ++ [e]) =
  match e with
  | EvFrame =>
      (wrap_size (wrap_size (iterations iv) + 1), elapsed_total iv,
       physics_total iv, render_total iv)
  | EvElapsed d =>
      (wrap_size (iterations iv), F32.add (elapsed_total iv) d,
       physics_total iv, render_total iv)
  | EvPhysicsTime d =>
      (wrap_size (iterations iv), elapsed_total iv,
       F32.add (physics_total iv) d, render_total iv)
  | EvRenderTime d =>
      (wrap_size (iterations iv), elapsed_total iv, physics_total iv,
       F32.add (render_total iv) d)
  | _ => totals iv
  end.
Proof.
  unfold totals.
  rewrite iterations_snoc, elapsed_total_snoc, physics_total_snoc,
    render_total_snoc.
  destruct e; try reflexivity.
  rewrite wrap_size_succ. reflexivity.
Qed.

Lemma step_ledger (act : Action) (w w' : World) (e : Event)
    (tr : list Event) :
  step act w = Some (e, w') ->
  ledger (locals w) = totals (interval tr) ->
  ledger (locals w') = totals (interval (tr ++ [e])).
Proof.
  intros H Hled.
  rewrite interval_snoc.
  destruct act; step_inv H; try rewrite totals_snoc; simpl;
    try exact Hled;
    unfold ledger in *; simpl;
    repeat match goal with
           | Hpc : pc (locals _) = _ |- _ => rewrite Hpc in *; clear Hpc
           end;
    unfold totals in *;
    try (injection Hled as <- <- <- <-; reflexivity);
    try reflexivity.
Qed.

Lemma exec_ledger (w0 w : World) (tr : list Event) :
  pc (locals w0) = L_Entry ->
  exec w0 tr w ->
  ledger (locals w) = totals (interval tr).
Proof.
  intros Hentry Hexec.
  induction Hexec as [w1 | w1 tr w2 act e w3 Hexec IH Hstep].
  - unfold ledger. rewrite Hentry. reflexivity.
  - apply (step_ledger _ _ _ Hstep), IH, Hentry.
Qed.

Lemma check_ledger (w : World) (iv : list Event) :
  pc (locals w) = L_Check ->
  ledger (locals w) = totals iv ->
  frames (locals w) = wrap_size (iterations iv) /\
  elapsed (locals w) = elapsed_total iv /\
  pTime (locals w) = physics_total iv /\
  rTime (locals w) = render_total iv.
Proof.
  unfold ledger, totals.
  intros -> H. injection H as -> -> -> ->.
  repeat split; reflexivity.
Qed.

Lemma step_info (act : Action) (w w' : World) (p r : float) :
  step act w = Some (EvInfo p r, w') ->
  pc (locals w) = L_Check /\
  F32.leb F32.lit_1000 (elapsed (locals w)) = true /\
  p = F32.div (pTime (locals w)) (F32.of_Z (Z.of_N (frames (locals w)))) /\
  r = F32.div (rTime (locals w)) (F32.of_Z (Z.of_N (frames (locals w)))) /\
  pc (locals w') = L_While /\
  ledger (locals w') = (0%N, F32.zero, F32.zero, F32.zero).
Proof.
  intro H.
  destruct act; step_inv H.
  repeat split; assumption || reflexivity.
Qed.









End Facts.

(** ** The theorems on a concrete run *)


Lemma presentScene_empty_mesh_witness :
  MeshBuffer_get (mesh Demo.game0) = [] /\
  update (collab := Demo.collab) Demo.game0 GL_initial
  = (Demo.game0, GL_initial).
Proof.
  split.
  - reflexivity.
  - apply (presentScene_empty_mesh (collab := Demo.collab)).
    reflexivity.
Defined.

Lemma Demo_started : started (spawn Demo.game0).
Proof. repeat split. Qed.

Lemma acceleration_latest_value_witness :
  Game_ctor (collab := Demo.collab) Demo.config Demo.surface Demo.clock
  = Done Demo.game0 /\
  exec (spawn Demo.game0) Demo.trace_tilt Demo.world_tilt /\
  Acceleration_get (acceleration (game Demo.world_tilt)) = Demo.tilted /\
  In (EvUpdate Demo.tilted F32.lit_0_01 true) Demo.trace_tilt.
Proof.
  assert (Hctor : Game_ctor (collab := Demo.collab) Demo.config Demo.surface
                    Demo.clock = Done Demo.game0) by reflexivity.
  assert (Hexec : exec (spawn Demo.game0) Demo.trace_tilt Demo.world_tilt)
    by (apply run_exec with (acts := Demo.tilt); reflexivity).
  split; [exact Hctor |].
  split; [exact Hexec |].
  destruct (acceleration_latest_value _ _ _ Hctor Hexec)
    as [_ [_ [Hslot _]]].
  split.
  - rewrite Hslot. reflexivity.
  - simpl. tauto.
Defined.


Lemma update_fixed_time_step_witness :
  started (spawn Demo.game0) /\
  exec (spawn Demo.game0) Demo.trace0 Demo.world0 /\
  In (EvUpdate default_acceleration (S754_finite false 10737418 (-30)) true)
     Demo.trace0.
Proof.
  assert (Hexec : exec (spawn Demo.game0) Demo.trace0 Demo.world0)
    by (apply run_exec with (acts := Demo.one_iteration); reflexivity).
  split; [exact Demo_started |].
  split; [exact Hexec |].
  destruct (update_fixed_time_step Demo_started Hexec) as [Hdt _].
  assert (Hin : In (EvUpdate default_acceleration F32.lit_0_01 true)
                   Demo.trace0) by (simpl; tauto).
  rewrite <- (Hdt _ _ _ Hin). exact Hin.
Defined.


End GameFacts.

(** * Facts about [Physics::init] *)

Module InitFacts.

Import PhysicsClass.

Section Loop.

Variable G : Type.
Variable gen : G -> N -> Physics.Particle * G.

Lemma init_loop_appends (fuel : nat) :
  forall (i : N) (g : G) (ph : Physics),
    (count ph < SIZE_MOD)%N ->
    (N.of_nat fuel + i = count ph)%N ->
    count (fst (init_loop gen fuel i g ph)) = count ph /\
    dt (fst (init_loop gen fuel i g ph)) = dt ph /\
    grid (fst (init_loop gen fuel i g ph)) = grid ph /\
    exists new,
      plist (fst (init_loop gen fuel i g ph)) = plist ph ++ new /\
      List.length new = fuel.
Proof.
  induction fuel as [| fuel IH]; intros i g ph Hsize Hsum.
  - simpl. repeat split. exists []. rewrite app_nil_r. split; reflexivity.
  - cbn [init_loop].
    assert (Hlt : (i <? count ph)%N = true) by (apply N.ltb_lt; lia).
    rewrite Hlt.
    destruct (gen g i) as [p g'].
    assert (Hwrap : wrap_size (i + 1) = (i + 1)%N).
    { unfold wrap_size. apply N.mod_small. lia. }
    rewrite Hwrap.
    destruct (IH (i + 1)%N g' (push_back p ph)) as [Hc [Hd [Hg [new [Hp Hl]]]]].
    + exact Hsize.
    + simpl. lia.
    + repeat split; try assumption.
      exists (p :: new).
      split.
      * rewrite Hp. simpl. rewrite <- app_assoc. reflexivity.
      * simpl. rewrite Hl. reflexivity.
Qed.

Lemma init_loop_enough (fuel : nat) :
  forall (extra : nat) (i : N) (g : G) (ph : Physics),
    (count ph < SIZE_MOD)%N ->
    (N.of_nat fuel + i = count ph)%N ->
    init_loop gen (fuel + extra) i g ph = init_loop gen fuel i g ph.
Proof.
  induction fuel as [| fuel IH]; intros extra i g ph Hsize Hsum.
  - destruct extra as [| extra]; [reflexivity |].
    cbn [Nat.add init_loop].
    assert (Hge : (i <? count ph)%N = false) by (apply N.ltb_ge; lia).
    rewrite Hge. reflexivity.
  - cbn [Nat.add init_loop].
    assert (Hlt : (i <? count ph)%N = true) by (apply N.ltb_lt; lia).
    rewrite Hlt.
    destruct (gen g i) as [p g'].
    assert (Hwrap : wrap_size (i + 1) = (i + 1)%N).
    { unfold wrap_size. apply N.mod_small. lia. }
    rewrite Hwrap.
    apply IH; simpl; [exact Hsize | lia].
Qed.

(** X1: [init] appends exactly [count] particles behind the ones that
    [plist] already holds and changes nothing else; the loop has then run to
    its end (more iterations would change nothing); and with [count] = 0 it
    does not call the generator at all. *)
Theorem init_appends_count (g : G) (ph : Physics) :
  (count ph < SIZE_MOD)%N ->
  (forall extra,
     init_loop gen (N.to_nat (count ph) + extra) 0 g ph = init gen g ph) /\
  count (fst (init gen g ph)) = count ph /\
  dt (fst (init gen g ph)) = dt ph /\
  grid (fst (init gen g ph)) = grid ph /\
  (exists new,
     plist (fst (init gen g ph)) = plist ph ++ new /\
     N.of_nat (List.length new) = count ph) /\
  (count ph = 0%N -> init gen g ph = (ph, g)).
Proof.
  intro Hsize.
  assert (Hsum : (N.of_nat (N.to_nat (count ph)) + 0 = count ph)%N) by lia.
  split.
  - intro extra. apply init_loop_enough; assumption.
  - destruct (init_loop_appends (N.to_nat (count ph)) 0 g ph Hsize Hsum)
      as [Hc [Hd [Hg [new [Hp Hl]]]]].
    unfold init.
    repeat split; try assumption.
    + exists new. split; [exact Hp | lia].
    + intro Hzero. rewrite Hzero. reflexivity.
Qed.

(** X3: [init] does not start from an empty list: a second call appends
    another [count] particles, so that the list is then [2 * count] longer
    than it was, although [count] is unchanged. *)
Theorem init_twice_doubles (g : G) (ph : Physics) :
  (count ph < SIZE_MOD)%N ->
  let first := init gen g ph in
  let second := init gen (snd first) (fst first) in
  count (fst second) = count ph /\
  List.length (plist (fst second)) =
    (List.length (plist ph) + 2 * N.to_nat (count ph))%nat.
Proof.
  intros Hsize first second.
  subst first second.
  assert (Hsum : (N.of_nat (N.to_nat (count ph)) + 0 = count ph)%N) by lia.
  destruct (init_loop_appends (N.to_nat (count ph)) 0 g ph Hsize Hsum)
    as [Hc [_ [_ [new [Hp Hl]]]]].
  fold (init gen g ph) in Hc, Hp.
  set (ph1 := fst (init gen g ph)) in *.
  set (g1 := snd (init gen g ph)).
  assert (Hsize1 : (count ph1 < SIZE_MOD)%N) by (rewrite Hc; exact Hsize).
  assert (Hsum1 : (N.of_nat (N.to_nat (count ph1)) + 0 = count ph1)%N)
    by lia.
  destruct (init_loop_appends (N.to_nat (count ph1)) 0 g1 ph1 Hsize1 Hsum1)
    as [Hc2 [_ [_ [new2 [Hp2 Hl2]]]]].
  fold (init gen g1 ph1) in Hc2, Hp2.
  split.
  - rewrite Hc2. exact Hc.
  - rewrite Hp2, Hp, !length_app, Hl, Hl2, Hc. lia.
Qed.

End Loop.

Lemma recording_loop (f : N -> Physics.Particle) (fuel : nat) :
  forall (i : N) (calls : list N) (ph : Physics),
    (count ph < SIZE_MOD)%N ->
    (N.of_nat fuel + i = count ph)%N ->
    init_loop (recording f) fuel i calls ph =
    (mkPhysics (count ph) (dt ph)
       (plist ph ++
        map f (map (fun k => (i + N.of_nat k)%N) (seq 0 fuel)))
       (grid ph),
     calls ++ map (fun k => (i + N.of_nat k)%N) (seq 0 fuel)).
Proof.
  induction fuel as [| fuel IH]; intros i calls ph Hsize Hsum.
  - simpl. rewrite !app_nil_r. destruct ph; reflexivity.
  - cbn [init_loop].
    assert (Hlt : (i <? count ph)%N = true) by (apply N.ltb_lt; lia).
    rewrite Hlt.
    unfold recording at 1.
    assert (Hwrap : wrap_size (i + 1) = (i + 1)%N).
    { unfold wrap_size. apply N.mod_small. lia. }
    rewrite Hwrap.
    rewrite IH by (simpl; lia || exact Hsize).
    assert (Hseq :
      map (fun k => (i + N.of_nat k)%N) (seq 0 (S fuel)) =
      i :: map (fun k => (i + 1 + N.of_nat k)%N) (seq 0 fuel)).
    { cbn [seq map]. f_equal; [lia |].
      rewrite <- seq_shift, map_map.
      apply map_ext. intro k. lia. }
    rewrite Hseq. simpl.
    rewrite <- !app_assoc. reflexivity.
Qed.

(** X2: [init] calls the generator with the indices 0, 1, ..., [count] - 1,
    in this order and once each, and appends the particles in the order of
    the calls. *)
Theorem init_calls_in_order (f : N -> Physics.Particle) (calls : list N)
    (ph : Physics) :
  (count ph < SIZE_MOD)%N ->
  init (recording f) calls ph =
  (mkPhysics (count ph) (dt ph)
     (plist ph ++ map f (indices (count ph))) (grid ph),
   calls ++ indices (count ph)).
Proof.
  intro Hsize.
  unfold init.
  rewrite recording_loop by (exact Hsize || lia).
  unfold indices.
  assert (Hidx :
    map (fun k => (0 + N.of_nat k)%N) (seq 0 (N.to_nat (count ph))) =
    map N.of_nat (seq 0 (N.to_nat (count ph)))).
  { apply map_ext. intro k. lia. }
  rewrite Hidx. reflexivity.
Qed.

Lemma init_appends_count_witness :
  (count Demo2.physics0 < SIZE_MOD)%N /\
  List.length
    (plist (fst (init (recording Demo2.at_index) [] Demo2.physics0)))
  = 4%nat.
Proof.
  assert (Hsize : (count Demo2.physics0 < SIZE_MOD)%N) by reflexivity.
  split; [exact Hsize |].
  destruct (init_appends_count (recording Demo2.at_index) []
              Demo2.physics0 Hsize)
    as [_ [_ [_ [_ [[new [Hp Hl]] _]]]]].
  rewrite Hp, length_app.
  simpl in Hl. simpl. lia.
Defined.

Lemma init_twice_doubles_witness :
  (count Demo2.physics0 < SIZE_MOD)%N /\
  List.length
    (plist
       (fst (init (recording Demo2.at_index)
               (snd (init (recording Demo2.at_index) [] Demo2.physics0))
               (fst (init (recording Demo2.at_index) [] Demo2.physics0)))))
  = 7%nat.
Proof.
  assert (Hsize : (count Demo2.physics0 < SIZE_MOD)%N) by reflexivity.
  split; [exact Hsize |].
  destruct (init_twice_doubles (recording Demo2.at_index) []
              Demo2.physics0 Hsize) as [_ Hlen].
  exact Hlen.
Defined.

Lemma init_calls_in_order_witness :
  (count Demo2.physics0 < SIZE_MOD)%N /\
  snd (init (recording Demo2.at_index) [] Demo2.physics0)
  = [0; 1; 2]%N.
Proof.
  assert (Hsize : (count Demo2.physics0 < SIZE_MOD)%N) by reflexivity.
  split; [exact Hsize |].
  rewrite (init_calls_in_order Demo2.at_index [] Demo2.physics0 Hsize).
  reflexivity.
Defined.

End InitFacts.

(** * Further facts about the runs of b2/src/game.cpp *)

Module RunFacts.

Import B2 B2Runs.

Section Facts.

Context {collab : Collaborators}.

Ltac break_match H :=
  repeat match type of H with
         | context [match ?c with _ => _ end] => destruct c eqn:?
         end.

Ltac step_inv H :=
  unfold step, logic_step in H;
  break_match H; try discriminate H;
  first [injection H as ? ? | injection H as ?]; subst.

Ltac use_pc :=
  repeat match goal with
         | Hpc : pc (locals _) = _ |- _ => rewrite Hpc in *; clear Hpc
         end.

(** ** What the calls leave alone *)

Lemma update_keeps (s s' : Game) (gl gl' : GLState) :
  update s gl = (s', gl') ->
  particlesCloud s' = particlesCloud s /\ gridSize s' = gridSize s /\
  camera s' = camera s /\ shaderProgram s' = shaderProgram s /\
  projection s' = projection s /\ singleThread s' = singleThread s /\
  isosurface s' = isosurface s.
Proof.
  unfold update, presentScene.
  destruct (size (MeshBuffer_get (mesh s)) =? 0)%N;
    intro H; injection H as <- <-; repeat split; reflexivity.
Qed.

Lemma step_static (act : Action) (w w' : World) (e : Event) :
  step act w = Some (e, w') ->
  singleThread (game w') = singleThread (game w) /\
  gridSize (game w') = gridSize (game w) /\
  camera (game w') = camera (game w) /\
  shaderProgram (game w') = shaderProgram (game w) /\
  projection (game w') = projection (game w).
Proof.
  intro H.
  destruct act; step_inv H; simpl; try (repeat split; reflexivity).
  match goal with
  | Hu : update _ _ = _ |- _ => apply update_keeps in Hu
  end.
  tauto.
Qed.

Lemma step_cloud (act : Action) (w w' : World) (e : Event) :
  step act w = Some (e, w') ->
  particlesCloud (game w') =
  match e with
  | EvUpdate acc dt single =>
      Cloud_update acc dt single (particlesCloud (game w))
  | _ => particlesCloud (game w)
  end.
Proof.
  intro H.
  destruct act; step_inv H; simpl; try reflexivity.
  match goal with
  | Hu : update _ _ = _ |- _ => apply update_keeps in Hu
  end.
  tauto.
Qed.

Lemma step_gl (act : Action) (w w' : World) (e : Event) :
  step act w = Some (e, w') ->
  is_present e = false ->
  glstate w' = glstate w /\
  surfaceVertices (game w') = surfaceVertices (game w).
Proof.
  intros H He.
  destruct act; step_inv H; simpl; try (split; reflexivity).
  discriminate He.
Qed.

Lemma step_swap (act : Action) (w w' : World) (m : Mesh) :
  step act w = Some (EvSwap m, w') ->
  m = fst (generateMesh (Cloud_getParticles (particlesCloud (game w)))
             radius (st (locals w)) (isosurface (game w))).
Proof.
  intro H.
  destruct act; step_inv H.
  reflexivity.
Qed.

Lemma step_update_at (act : Action) (w w' : World) (acc : vec3)
    (dt : float) (single : bool) :
  step act w = Some (EvUpdate acc dt single, w') ->
  pc (locals w) = L_Update /\ single = st (locals w).
Proof.
  intro H.
  destruct act; step_inv H.
  split; reflexivity.
Qed.

Lemma step_mode (act : Action) (w w' : World) (e : Event) (mode : bool) :
  step act w = Some (e, w') ->
  singleThread (game w) = mode ->
  (has_read_mode (pc (locals w)) = true -> st (locals w) = mode) ->
  has_read_mode (pc (locals w')) = true -> st (locals w') = mode.
Proof.
  intros H Hmode Hst.
  destruct act; step_inv H; simpl; use_pc; simpl in *;
    try (intro; discriminate); try (intros _; apply Hst; reflexivity);
    try exact Hst.
  intros _. reflexivity.
Qed.

Lemma step_pending (act : Action) (w w' : World) (e : Event) :
  step act w = Some (e, w') ->
  (pending (pc (locals w)) + (if is_update e then 1 else 0) =
   pending (pc (locals w')) + (if is_swap e then 1 else 0))%nat.
Proof.
  intro H.
  destruct act; step_inv H; simpl; use_pc; try reflexivity;
    destruct (pc (locals w)); reflexivity.
Qed.

Lemma step_counted (act : Action) (w w' : World) (e : Event) :
  step act w = Some (e, w') ->
  has_counted (pc (locals w')) = true ->
  e = EvFrame \/
  (has_counted (pc (locals w)) = true /\
   match e with EvInfo _ _ => False | _ => True end).
Proof.
  intro H.
  destruct act; step_inv H; simpl; use_pc; simpl;
    try (intro; discriminate); try (left; reflexivity);
    try (intro Hc; right; split; [exact Hc | exact I]);
    try (intros _; right; split; [reflexivity | exact I]).
Qed.

Lemma count_snoc (f : Event -> bool) (tr : list Event) (e : Event) :
  List.length (filter f (tr ++ [e])) =
  (List.length (filter f tr) + (if f e then 1 else 0))%nat.
Proof.
  rewrite filter_app, length_app. simpl.
  destruct (f e); reflexivity.
Qed.

Lemma cloud_after_snoc (tr : list Event) (e : Event) (c : Cloud) :
  cloud_after (tr ++ [e]) c =
  match e with
  | EvUpdate acc dt single => Cloud_update acc dt single (cloud_after tr c)
  | _ => cloud_after tr c
  end.
Proof. unfold cloud_after. rewrite fold_left_app. reflexivity. Qed.

Lemma exec_cloud (w0 w : World) (tr : list Event) :
  exec w0 tr w ->
  particlesCloud (game w) = cloud_after tr (particlesCloud (game w0)).
Proof.
  induction 1 as [w1 | w1 tr w2 act e w3 Hexec IH Hstep].
  - reflexivity.
  - rewrite cloud_after_snoc, (step_cloud _ _ Hstep), IH.
    reflexivity.
Qed.

Lemma cloud_after_idle (tr : list Event) (c : Cloud) :
  count_updates tr = 0%nat -> cloud_after tr c = c.
Proof.
  unfold count_updates.
  induction tr as [| e tr IH] using rev_ind; intro Hnone.
  - reflexivity.
  - rewrite count_snoc in Hnone.
    rewrite cloud_after_snoc.
    destruct e; simpl in Hnone; try (apply IH; lia).
    lia.
Qed.

Lemma exec_static (w0 w : World) (tr : list Event) :
  exec w0 tr w ->
  singleThread (game w) = singleThread (game w0) /\
  gridSize (game w) = gridSize (game w0) /\
  camera (game w) = camera (game w0) /\
  shaderProgram (game w) = shaderProgram (game w0) /\
  projection (game w) = projection (game w0).
Proof.
  induction 1 as [w1 | w1 tr w2 act e w3 Hexec IH Hstep].
  - repeat split; reflexivity.
  - destruct (step_static _ _ Hstep) as [H1 [H2 [H3 [H4 H5]]]].
    destruct IH as [I1 [I2 [I3 [I4 I5]]]].
    repeat split; congruence.
Qed.

Lemma exec_mode (w0 w : World) (tr : list Event) :
  has_read_mode (pc (locals w0)) = false ->
  exec w0 tr w ->
  has_read_mode (pc (locals w)) = true ->
  st (locals w) = singleThread (game w0).
Proof.
  intros Hinit Hexec.
  induction Hexec as [w1 | w1 tr w2 act e w3 Hexec IH Hstep].
  - rewrite Hinit. discriminate.
  - apply (step_mode _ _ Hstep).
    + apply (exec_static Hexec).
    + apply IH, Hinit.
Qed.

(** ** The mode of the solver *)

Lemma Game_ctor_singleThread (config : Config) (surfaceSize : ivec2)
    (clock : nat -> Z) (s : Game) :
  Game_ctor config surfaceSize clock = Done s ->
  singleThread s = config_singleThread config.
Proof.
  unfold Game_ctor, initLogicThread, _assert.
  destruct (0 <? config_gridWidth config)%N; [| discriminate].
  destruct (0 <? config_particlesCount config)%N; [| discriminate].
  destruct (gridHeight surfaceSize (config_gridWidth config));
    [| discriminate].
  intro H. injection H as <-. reflexivity.
Qed.

(** X4: the single-thread flag is stored once, by the constructor, from the
    configuration; in every run it keeps that value, and every update of
    the cloud is called with it. *)
Theorem update_mode_is_configured (config : Config) (surfaceSize : ivec2)
    (clock : nat -> Z) (s : Game) (tr : list Event) (w : World) :
  Game_ctor config surfaceSize clock = Done s ->
  exec (spawn s) tr w ->
  singleThread (game w) = config_singleThread config /\
  forall acc dt single,
    In (EvUpdate acc dt single) tr -> single = config_singleThread config.
Proof.
  intros Hctor Hexec.
  pose proof (Game_ctor_singleThread _ _ _ Hctor) as Hconf.
  split.
  - destruct (exec_static Hexec) as [Hst _].
    rewrite Hst. exact Hconf.
  - intros acc dt single Hin.
    apply in_split in Hin as [t1 [t2 Heq]].
    destruct (GameFacts.exec_split Hexec _ _ _ Heq)
      as [w1 [w2 [act [H1 [H2 _]]]]].
    apply step_update_at in H2 as [Hpc ->].
    rewrite (exec_mode (w0 := spawn s) eq_refl H1).
    + exact Hconf.
    + rewrite Hpc. reflexivity.
Qed.

(** ** The particles *)

(** X5: the cloud is changed by the updates of the logic thread and by
    nothing else: after any run it is the initial cloud with the updates of
    the trace applied in order, whatever the timers read and whatever the
    owner called; without an update it is the initial cloud. *)
Theorem cloud_changes_only_by_update (w0 w : World) (tr : list Event) :
  exec w0 tr w ->
  particlesCloud (game w) = cloud_after tr (particlesCloud (game w0)) /\
  (count_updates tr = 0%nat ->
   particlesCloud (game w) = particlesCloud (game w0)).
Proof.
  intro Hexec.
  pose proof (exec_cloud Hexec) as Hcloud.
  split; [exact Hcloud |].
  intro Hnone. rewrite Hcloud. apply cloud_after_idle, Hnone.
Qed.

(** X6: updates and publications alternate: at any moment of a run the
    number of updates is the number of published meshes, plus one while the
    loop is between the update and the swap of its iteration. *)
Theorem updates_published_once (w0 w : World) (tr : list Event) :
  started w0 ->
  exec w0 tr w ->
  count_updates tr = (count_swaps tr + pending (pc (locals w)))%nat.
Proof.
  intros [Hentry _] Hexec.
  induction Hexec as [w1 | w1 tr w2 act e w3 Hexec IH Hstep].
  - rewrite Hentry. reflexivity.
  - unfold count_updates, count_swaps in *.
    rewrite !count_snoc.
    pose proof (step_pending _ _ Hstep) as Hp.
    specialize (IH Hentry).
    lia.
Qed.

(** X7: a published mesh is generated from the particles of the cloud as
    the updates before it have left them. *)
Theorem published_mesh_of_latest_particles (w0 w : World)
    (tr t1 t2 : list Event) (m : Mesh) :
  exec w0 tr w ->
  tr = t1 ++ EvSwap m :: t2 ->
  exists single iso,
    m = fst (generateMesh
               (Cloud_getParticles
                  (cloud_after t1 (particlesCloud (game w0))))
               radius single iso).
Proof.
  intros Hexec Heq.
  destruct (GameFacts.exec_split Hexec _ _ _ Heq)
    as [w1 [w2 [act [H1 [H2 _]]]]].
  exists (st (locals w1)), (isosurface (game w1)).
  rewrite <- (exec_cloud H1).
  apply (step_swap _ _ H2).
Qed.

(** ** The timing log *)

Lemma exec_counted (w0 w : World) (tr : list Event) :
  has_counted (pc (locals w0)) = false ->
  exec w0 tr w ->
  has_counted (pc (locals w)) = true ->
  (1 <= iterations (interval tr))%N.
Proof.
  intros Hinit Hexec.
  induction Hexec as [w1 | w1 tr w2 act e w3 Hexec IH Hstep]; intro Hc.
  - rewrite Hinit in Hc. discriminate Hc.
  - rewrite GameFacts.interval_snoc.
    destruct (step_counted _ _ Hstep Hc) as [-> | [Hold He]].
    + rewrite GameFacts.iterations_snoc. lia.
    + specialize (IH Hinit Hold).
      destruct e; try contradiction;
        rewrite GameFacts.iterations_snoc; lia.
Qed.

(** X8: a log line is written only after at least one iteration has been
    counted since the previous one, and as long as fewer than 2^64 were
    counted the two averages are divided by exactly that number: the
    divisor is never zero. *)
Theorem log_counts_an_iteration (w0 w : World) (tr t1 t2 : list Event)
    (p r : float) :
  started w0 ->
  exec w0 tr w ->
  tr = t1 ++ EvInfo p r :: t2 ->
  (1 <= iterations (interval t1))%N /\
  ((iterations (interval t1) < SIZE_MOD)%N ->
   p = F32.div (physics_total (interval t1))
         (F32.of_Z (Z.of_N (iterations (interval t1)))) /\
   r = F32.div (render_total (interval t1))
         (F32.of_Z (Z.of_N (iterations (interval t1))))).
Proof.
  intros [Hentry _] Hexec Heq.
  destruct (GameFacts.exec_split Hexec _ _ _ Heq)
    as [w1 [w2 [act [H1 [H2 _]]]]].
  destruct (GameFacts.step_info _ _ H2) as [Hpc [_ [Hp [Hr _]]]].
  split.
  - apply (exec_counted (w0 := w0) (w := w1)).
    + rewrite Hentry. reflexivity.
    + exact H1.
    + rewrite Hpc. reflexivity.
  - intro Hsmall.
    destruct (GameFacts.check_ledger _ Hpc (GameFacts.exec_ledger Hentry H1))
      as [Hf [_ [Hpt Hrt]]].
    unfold wrap_size in Hf. rewrite N.mod_small in Hf by exact Hsmall.
    rewrite Hp, Hr, Hf, Hpt, Hrt. split; reflexivity.
Qed.

(** ** Presentation *)

Lemma update_frames (s s' : Game) (gl gl' : GLState) :
  update s gl = (s', gl') ->
  (s' = s /\ gl' = gl) \/
  (exists n,
     (0 < n)%N /\
     frameOps gl' = frameOps gl ++ [ClearColorDepth; DrawTriangles n]) /\
  modelviewUniform gl' = Some (modelview_of s) /\
  projectionUniform gl' = Some (projection s) /\
  program gl' = Some (shaderProgram s) /\
  arrayBuffer gl' = Some (surfaceVertices s').
Proof.
  unfold update, presentScene.
  destruct (size (MeshBuffer_get (mesh s)) =? 0)%N eqn:Hsize;
    intro H; injection H as <- <-.
  - left. split; reflexivity.
  - right. repeat split.
    exists (size (MeshBuffer_get (mesh s))).
    split; [| reflexivity].
    apply N.eqb_neq in Hsize. lia.
Qed.

Lemma frames_ok_snoc (ops : list FrameOp) (n : N) :
  frames_ok ops = true ->
  frames_ok (ops ++ [ClearColorDepth; DrawTriangles n]) = (0 <? n)%N.
Proof.
  assert (H : forall l,
    (frames_ok l = true ->
     frames_ok (l ++ [ClearColorDepth; DrawTriangles n]) = (0 <? n)%N) /\
    (forall o, frames_ok (o :: l) = true ->
     frames_ok ((o :: l) ++ [ClearColorDepth; DrawTriangles n])
     = (0 <? n)%N)).
  { induction l as [| o' l [IH1 IH2]].
    - split.
      + intros _. simpl. rewrite andb_true_r. reflexivity.
      + intros o Ho. destruct o; discriminate Ho.
    - split.
      + apply IH2.
      + intros o Ho.
        destruct o; [| discriminate Ho].
        destruct o'; [discriminate Ho |].
        cbn [frames_ok] in Ho.
        apply andb_true_iff in Ho as [Hn Hrest].
        change (frames_ok
                  (ClearColorDepth :: DrawTriangles count ::
                   (l ++ [ClearColorDepth; DrawTriangles n]))
                = (0 <? n)%N).
        cbn [frames_ok]. rewrite Hn, (IH1 Hrest). reflexivity. }
  apply H.
Qed.

Lemma count_draws_snoc (ops : list FrameOp) (n : N) :
  count_draws (ops ++ [ClearColorDepth; DrawTriangles n]) =
  S (count_draws ops).
Proof.
  unfold count_draws. rewrite filter_app, length_app. simpl. lia.
Qed.

(** X9: in the stream of frame operations every draw comes directly after a
    clear of colour and depth and draws at least one vertex, and there is at
    most one draw per call of [update]. *)
Theorem draws_follow_clears (w0 w : World) (tr : list Event) :
  exec w0 tr w ->
  frames_ok (frameOps (glstate w0)) = true ->
  frames_ok (frameOps (glstate w)) = true /\
  (count_draws (frameOps (glstate w)) <=
   count_draws (frameOps (glstate w0)) + count_presents tr)%nat.
Proof.
  intros Hexec Hinit.
  induction Hexec as [w1 | w1 tr w2 act e w3 Hexec IH Hstep].
  - split; [exact Hinit | lia].
  - destruct (IH Hinit) as [Hok Hcount].
    unfold count_presents in *. rewrite count_snoc.
    destruct (is_present e) eqn:He.
    + destruct e; try discriminate He.
      destruct act; step_inv Hstep. simpl.
      match goal with
      | Hu : update _ _ = _ |- _ =>
          apply update_frames in Hu as [[_ ->] | [[n [Hn Hops]] _]]
      end.
      * split; [exact Hok | lia].
      * rewrite Hops, frames_ok_snoc, count_draws_snoc by exact Hok.
        split; [apply N.ltb_lt, Hn | lia].
    + destruct (step_gl _ _ Hstep He) as [-> _].
      split; [exact Hok | lia].
Qed.

(** X10: the logic thread and the sensor callback never touch GL: in a run
    without a call of [update] the GL state and the vertex buffer are the
    initial ones. *)
Theorem no_gl_without_update (w0 w : World) (tr : list Event) :
  exec w0 tr w ->
  count_presents tr = 0%nat ->
  glstate w = glstate w0 /\
  surfaceVertices (game w) = surfaceVertices (game w0).
Proof.
  intro Hexec.
  induction Hexec as [w1 | w1 tr w2 act e w3 Hexec IH Hstep]; intro Hnone.
  - split; reflexivity.
  - unfold count_presents in *. rewrite count_snoc in Hnone.
    destruct (is_present e) eqn:He; [lia |].
    destruct (step_gl _ _ Hstep He) as [-> ->].
    apply IH. lia.
Qed.

(** X14: what [presentScene] uploads is computed from the values of the
    construction: the grid size, the camera, the projection and the program
    never change in a run, and the modelview and projection uniforms and
    the program in use are either the initial ones or those of the
    constructed game. *)
Theorem uploads_use_construction_values (w0 w : World) (tr : list Event) :
  exec w0 tr w ->
  gridSize (game w) = gridSize (game w0) /\
  camera (game w) = camera (game w0) /\
  projection (game w) = projection (game w0) /\
  shaderProgram (game w) = shaderProgram (game w0) /\
  (glstate w = glstate w0 \/
   modelviewUniform (glstate w) = Some (modelview_of (game w0)) /\
   projectionUniform (glstate w) = Some (projection (game w0)) /\
   program (glstate w) = Some (shaderProgram (game w0))).
Proof.
  intro Hexec.
  destruct (exec_static Hexec) as [_ [Hg [Hc [Hs Hp]]]].
  repeat split; try assumption.
  clear Hg Hc Hs Hp.
  induction Hexec as [w1 | w1 tr w2 act e w3 Hexec IH Hstep].
  - left. reflexivity.
  - destruct (is_present e) eqn:He.
    + destruct e; try discriminate He.
      destruct (exec_static Hexec) as [_ [Hg [Hc [Hs Hp]]]].
      destruct act; step_inv Hstep. simpl.
      match goal with
      | Hu : update _ _ = _ |- _ =>
          apply update_frames in Hu as [[_ ->] | [_ [Hm [Hpr [Hsh _]]]]]
      end.
      * exact IH.
      * right.
        rewrite Hm, Hpr, Hsh, Hp, Hs.
        unfold modelview_of. rewrite Hg, Hc.
        repeat split; reflexivity.
    + destruct (step_gl _ _ Hstep He) as [-> _]. exact IH.
Qed.

(** ** Construction *)

Lemma to_int32_range (f : float) (v : Z) :
  F32.to_int32 f = Some v -> (- 2 ^ 31 <= v < 2 ^ 31)%Z.
Proof.
  unfold F32.to_int32.
  destruct f as [sz | si | | sf m e]; try discriminate.
  - intro H. injection H as <-. lia.
  - match goal with
    | |- (if ?c then _ else _) = _ -> _ => destruct c eqn:Hc
    end; [| discriminate].
    intro H. injection H as <-.
    apply andb_true_iff in Hc as [Hlo Hhi].
    apply Z.leb_le in Hlo. apply Z.ltb_lt in Hhi.
    split; assumption.
Qed.

Lemma gridHeight_zero_width (height : Z) (gridWidth : N) :
  gridHeight (mkivec2 0 height) gridWidth = None.
Proof.
  unfold gridHeight. simpl ix.
  change (F32.of_Z 0) with (S754_zero false).
  destruct (F32.mul (F32.of_Z (Z.of_N gridWidth))
              (F32.of_Z (iy (mkivec2 0 height))))
    as [sz | si | | sf m e]; reflexivity.
Qed.

(** X12: with a surface of width 0 the grid height is the [int32_t]
    conversion of an infinity or a NaN, whatever the other inputs are: once
    the two assertions have passed, [initLogicThread] and the constructor
    run into undefined behaviour. *)
Theorem zero_width_surface_is_undefined (height : Z) (config : Config)
    (clock : nat -> Z) (s : Game) :
  (0 < config_gridWidth config)%N ->
  (0 < config_particlesCount config)%N ->
  gridHeight (mkivec2 0 height) (config_gridWidth config) = None /\
  initLogicThread (mkivec2 0 height) (config_gridWidth config)
    (config_particlesCount config) clock s = @Undefined Game /\
  Game_ctor config (mkivec2 0 height) clock = @Undefined Game.
Proof.
  intros Hwidth Hcount.
  apply N.ltb_lt in Hwidth, Hcount.
  split; [apply gridHeight_zero_width |].
  unfold Game_ctor, initLogicThread, _assert.
  rewrite Hwidth, Hcount, gridHeight_zero_width.
  split; reflexivity.
Qed.

(** X13: the grid is as wide and as deep as configured only below 2^31:
    [glm::ivec3] narrows the [size_t] to an [int], so that a width that is a
    multiple of 2^32 passes the assertion and gives a grid of width 0.  The
    height is the truncated quotient, within the range of [int32_t], and
    the isosurface is built over the grid size plus the margin. *)
Theorem gridSize_is_narrowed (surfaceSize : ivec2)
    (gridWidth particlesCount : N) (clock : nat -> Z) (s s' : Game) :
  initLogicThread surfaceSize gridWidth particlesCount clock s = Done s' ->
  gx (gridSize s') = wrap_int (Z.of_N gridWidth) /\
  gz (gridSize s') = wrap_int (Z.of_N gridWidth) /\
  gridHeight surfaceSize gridWidth = Some (gy (gridSize s')) /\
  (- 2 ^ 31 <= gy (gridSize s') < 2 ^ 31)%Z /\
  ((gridWidth < 2 ^ 31)%N -> gx (gridSize s') = Z.of_N gridWidth) /\
  ((gridWidth mod 2 ^ 32 = 0)%N -> gx (gridSize s') = 0%Z) /\
  isosurface s' =
    Isosurface_ctor (ivec3_add (gridSize s') (ivec3_splat margin)).
Proof.
  unfold initLogicThread, _assert.
  destruct (0 <? gridWidth)%N; [| discriminate].
  destruct (0 <? particlesCount)%N; [| discriminate].
  destruct (gridHeight surfaceSize gridWidth) as [h |] eqn:Hh;
    [| discriminate].
  intro H. injection H as <-. simpl.
  repeat split; try reflexivity.
  - apply (to_int32_range _ Hh).
  - apply (to_int32_range _ Hh).
  - intro Hsmall.
    unfold wrap_int.
    rewrite Z.mod_small by lia. lia.
  - intro Hmult.
    unfold wrap_int.
    assert (Hm : (gridWidth mod 4294967296 = 0)%N) by exact Hmult.
    change (2 ^ 32)%Z with 4294967296%Z.
    change (2 ^ 31)%Z with 2147483648%Z.
    pose proof (N.div_mod' gridWidth 4294967296) as Hdm.
    rewrite Hm in Hdm.
    assert (Hq : Z.of_N gridWidth
                 = (Z.of_N (gridWidth / 4294967296) * 4294967296)%Z) by lia.
    rewrite Hq, Z.add_comm, Z_mod_plus_full.
    reflexivity.
Qed.

(** ** Destruction *)

Lemma run_app (a b : list Action) (w w1 w2 : World)
    (t1 t2 : list Event) :
  run a w = Some (t1, w1) ->
  run b w1 = Some (t2, w2) ->
  run (a ++ b) w = Some (t1 ++ t2, w2).
Proof.
  revert w t1.
  induction a as [| act a IH]; intros w t1 Ha Hb; simpl in *.
  - injection Ha as <- <-. exact Hb.
  - destruct (step act w) as [[e w'] |]; [| discriminate].
    destruct (run a w') as [[tr w''] |] eqn:Hrun; [| discriminate].
    injection Ha as <- <-.
    rewrite (IH _ _ Hrun Hb). reflexivity.
Qed.

Lemma logic_step_keeps (delta : float) (w w' : World) (e : Event) :
  logic_step delta w = Some (e, w') ->
  owner w' = owner w /\ alive (game w') = alive (game w).
Proof.
  intro H.
  unfold logic_step in H.
  break_match H; try discriminate H;
    injection H as ? ?; subst; split; simpl; congruence.
Qed.

Lemma run_logic_keeps (deltas : list float) :
  forall (w w' : World) (tr : list Event),
    run (map ALogic deltas) w = Some (tr, w') ->
    owner w' = owner w /\ alive (game w') = alive (game w).
Proof.
  induction deltas as [| d ds IH]; intros w w' tr Hrun; simpl in Hrun.
  - injection Hrun as _ <-. split; reflexivity.
  - destruct (logic_step d w) as [[e w1] |] eqn:Hstep; [| discriminate].
    destruct (run (map ALogic ds) w1) as [[tr1 w2] |] eqn:Hrest;
      [| discriminate].
    injection Hrun as _ <-.
    destruct (logic_step_keeps _ _ Hstep) as [Ho Ha].
    destruct (IH _ _ _ Hrest) as [Ho2 Ha2].
    split; congruence.
Qed.

(** X11: the destructor can always finish: from any moment of a run in
    which the game is still alive, after the store at most nine statements
    of the logic thread, whatever the timers read, bring the thread to its
    return, and the join then succeeds. *)
Theorem destructor_completes (w0 w : World) (tr : list Event)
    (deltas : list float) :
  started w0 ->
  exec w0 tr w ->
  owner w = Live ->
  (9 <= List.length deltas)%nat ->
  exists k tr' w',
    (k <= 9)%nat /\
    run (destroy (firstn k deltas)) w = Some (tr', w') /\
    owner w' = Destroyed /\
    logicThread (game w') = Joined /\
    alive (game w') = false.
Proof.
  intros [Hentry [Hlive [Halive Hrun]]] Hexec Hown Hlen.
  set (w1 := mkWorld (set_alive false (game w)) (locals w) Joining
               (glstate w)).
  assert (Hstore : step ADtorStore w = Some (EvDtorStore, w1)).
  { unfold step. rewrite Hown. reflexivity. }
  destruct (@GameFacts.cleared_returns _ 9 w1 deltas)
    as [k [tr1 [w2 [Hk [Hlogic Hret]]]]].
  - reflexivity.
  - intro Hpc. apply (GameFacts.exec_running Hrun Hexec). exact Hpc.
  - simpl. destruct (pc (locals w)); simpl; lia.
  - exact Hlen.
  - destruct (run_logic_keeps _ _ Hlogic) as [Ho Ha].
    set (w3 := mkWorld (set_logicThread Joined (game w2)) (locals w2)
                 Destroyed (glstate w2)).
    assert (Hjoin : run [ADtorJoin] w2 = Some ([EvDtorJoin], w3)).
    { simpl. rewrite Ho, Hret. reflexivity. }
    exists k, (EvDtorStore :: tr1 ++ [EvDtorJoin]), w3.
    split; [exact Hk |].
    split.
    + unfold destroy.
      cbn [run]. rewrite Hstore.
      erewrite run_app; [reflexivity | exact Hlogic | exact Hjoin].
    + repeat split. simpl. exact Ha.
Qed.

(** ** The life of the logic thread *)

Lemma step_live (act : Action) (w w' : World) (e : Event) :
  step act w = Some (e, w') ->
  owner w' = Live ->
  owner w = Live /\
  alive (game w') = alive (game w) /\
  (pc (locals w') = L_Return ->
   pc (locals w) = L_Return \/ alive (game w) = false).
Proof.
  intros H Hlive.
  destruct act; step_inv H; simpl in *; try discriminate Hlive;
    repeat split; try assumption; try congruence;
    try (intro; discriminate); try tauto.
  match goal with
  | Hu : update _ _ = _ |- _ => apply GameFacts.presentScene_frame in Hu
  end.
  tauto.
Qed.

Lemma exec_live (w0 w : World) (tr : list Event) :
  started w0 ->
  exec w0 tr w ->
  owner w = Live ->
  alive (game w) = true /\ pc (locals w) <> L_Return.
Proof.
  intros [Hentry [Hlive [Halive Hrun]]] Hexec.
  induction Hexec as [w1 | w1 tr w2 act e w3 Hexec IH Hstep]; intro Hown.
  - split; [exact Halive | congruence].
  - destruct (step_live _ _ Hstep Hown) as [Hown2 [Hsame Hret]].
    destruct (IH Hentry Hlive Halive Hrun Hown2) as [Ha Hpc].
    split; [congruence |].
    intro Hr. destruct (Hret Hr) as [Hold | Hfalse]; congruence.
Qed.

(** X15: the loop does not end by itself: as long as the destructor has not
    been entered the flag is set, the thread is running and has not
    returned, and its next statement can be executed whatever the timer
    reads. *)
Theorem logic_thread_runs_while_alive (w0 w : World) (tr : list Event)
    (delta : float) :
  started w0 ->
  exec w0 tr w ->
  owner w = Live ->
  alive (game w) = true /\
  pc (locals w) <> L_Return /\
  logicThread (game w) = Running /\
  exists e w', logic_step delta w = Some (e, w').
Proof.
  intros Hstart Hexec Hown.
  destruct (exec_live Hstart Hexec Hown) as [Ha Hpc].
  destruct Hstart as [_ [_ [_ Hrun]]].
  pose proof (GameFacts.exec_running Hrun Hexec Hpc) as Hthread.
  repeat split; try assumption.
  destruct (GameFacts.logic_step_successor delta w Hthread Hpc)
    as [e [w' [Hstep _]]].
  exists e, w'. exact Hstep.
Qed.

End Facts.

(** ** The theorems on concrete runs *)

#[local] Existing Instance Demo.collab.

Lemma exec_trace0 : exec (spawn Demo.game0) Demo.trace0 Demo.world0.
Proof.
  apply GameFacts.run_exec with (acts := Demo.one_iteration). reflexivity.
Qed.

Lemma exec_trace_present :
  exec (spawn Demo.game0) Demo2.trace_present Demo2.world_present.
Proof.
  apply GameFacts.run_exec with (acts := Demo2.present_twice). reflexivity.
Qed.

Lemma update_mode_is_configured_witness :
  Game_ctor (collab := Demo.collab) Demo.config Demo.surface Demo.clock
  = Done Demo.game0 /\
  exec (spawn Demo.game0) Demo.trace0 Demo.world0 /\
  singleThread (game Demo.world0) = true.
Proof.
  assert (Hctor : Game_ctor (collab := Demo.collab) Demo.config Demo.surface
                    Demo.clock = Done Demo.game0) by reflexivity.
  split; [exact Hctor |].
  split; [exact exec_trace0 |].
  destruct (update_mode_is_configured _ _ _ Hctor exec_trace0) as [Hmode _].
  exact Hmode.
Defined.

Lemma cloud_changes_only_by_update_witness :
  exec (spawn Demo.game0) Demo.trace0 Demo.world0 /\
  particlesCloud (game Demo.world0) =
  @Cloud_update Demo.collab default_acceleration F32.lit_0_01 true
    (particlesCloud Demo.game0).
Proof.
  split; [exact exec_trace0 |].
  destruct (cloud_changes_only_by_update exec_trace0) as [Hcloud _].
  rewrite Hcloud. reflexivity.
Defined.

Lemma updates_published_once_witness :
  started (spawn Demo.game0) /\
  exec (spawn Demo.game0) Demo.trace0 Demo.world0 /\
  count_updates Demo.trace0 = 1%nat /\
  count_swaps Demo.trace0 = 1%nat.
Proof.
  split; [exact GameFacts.Demo_started |].
  split; [exact exec_trace0 |].
  pose proof (updates_published_once GameFacts.Demo_started exec_trace0)
    as Hcount.
  split; [rewrite Hcount |]; reflexivity.
Defined.

Lemma published_mesh_of_latest_particles_witness :
  exec (spawn Demo.game0) Demo.trace0 Demo.world0 /\
  Demo.trace0 =
    firstn 5 Demo.trace0 ++ EvSwap Demo2.mesh0 :: skipn 6 Demo.trace0 /\
  exists single iso,
    Demo2.mesh0 =
    fst (@generateMesh Demo.collab
           (Cloud_getParticles
              (cloud_after (firstn 5 Demo.trace0)
                 (particlesCloud Demo.game0)))
           radius single iso).
Proof.
  assert (Heq : Demo.trace0 =
                firstn 5 Demo.trace0 ++ EvSwap Demo2.mesh0 ::
                skipn 6 Demo.trace0) by reflexivity.
  split; [exact exec_trace0 |].
  split; [exact Heq |].
  exact (published_mesh_of_latest_particles _ _ _ exec_trace0 Heq).
Defined.

Lemma log_counts_an_iteration_witness :
  started (spawn Demo.game0) /\
  exec (spawn Demo.game0) Demo.trace0 Demo.world0 /\
  Demo.trace0 =
    firstn 9 Demo.trace0 ++ EvInfo (F32.of_Z 7) (F32.of_Z 9) :: [] /\
  (1 <= iterations (interval (firstn 9 Demo.trace0)))%N.
Proof.
  assert (Heq : Demo.trace0 =
                firstn 9 Demo.trace0 ++
                EvInfo (F32.of_Z 7) (F32.of_Z 9) :: []) by reflexivity.
  split; [exact GameFacts.Demo_started |].
  split; [exact exec_trace0 |].
  split; [exact Heq |].
  destruct (log_counts_an_iteration _ _ _ _ GameFacts.Demo_started
              exec_trace0 Heq) as [Hone _].
  exact Hone.
Defined.

Lemma draws_follow_clears_witness :
  exec (spawn Demo.game0) Demo2.trace_present Demo2.world_present /\
  frames_ok (frameOps (glstate (spawn Demo.game0))) = true /\
  frames_ok (frameOps (glstate Demo2.world_present)) = true /\
  count_draws (frameOps (glstate Demo2.world_present)) = 1%nat.
Proof.
  assert (Hinit : frames_ok (frameOps (glstate (spawn Demo.game0))) = true)
    by reflexivity.
  split; [exact exec_trace_present |].
  split; [exact Hinit |].
  destruct (draws_follow_clears exec_trace_present Hinit) as [Hok _].
  split; [exact Hok | reflexivity].
Defined.

Lemma no_gl_without_update_witness :
  exec (spawn Demo.game0) Demo.trace0 Demo.world0 /\
  count_presents Demo.trace0 = 0%nat /\
  glstate Demo.world0 = GL_initial.
Proof.
  assert (Hnone : count_presents Demo.trace0 = 0%nat) by reflexivity.
  split; [exact exec_trace0 |].
  split; [exact Hnone |].
  destruct (no_gl_without_update exec_trace0 Hnone) as [Hgl _].
  exact Hgl.
Defined.

Lemma uploads_use_construction_values_witness :
  exec (spawn Demo.game0) Demo2.trace_present Demo2.world_present /\
  gridSize (game Demo2.world_present) = mkivec3 24 42 24.
Proof.
  split; [exact exec_trace_present |].
  destruct (uploads_use_construction_values exec_trace_present)
    as [Hgrid _].
  rewrite Hgrid. reflexivity.
Defined.

Lemma zero_width_surface_is_undefined_witness :
  (0 < config_gridWidth Demo.config)%N /\
  (0 < config_particlesCount Demo.config)%N /\
  Game_ctor (collab := Demo.collab) Demo.config (mkivec2 0 1920) Demo.clock
  = @Undefined Game.
Proof.
  assert (Hwidth : (0 < config_gridWidth Demo.config)%N) by reflexivity.
  assert (Hcount : (0 < config_particlesCount Demo.config)%N)
    by reflexivity.
  split; [exact Hwidth |].
  split; [exact Hcount |].
  destruct (zero_width_surface_is_undefined (collab := Demo.collab) 1920
              Demo.config Demo.clock Game_members Hwidth Hcount)
    as [_ [_ Hctor]].
  exact Hctor.
Defined.

Lemma gridSize_is_narrowed_witness :
  initLogicThread (collab := Demo.collab) Demo.surface 24 3 Demo.clock
    Game_members = Done Demo2.game_logic /\
  gridSize Demo2.game_logic = mkivec3 24 42 24.
Proof.
  assert (Hinit : initLogicThread (collab := Demo.collab) Demo.surface 24 3
                    Demo.clock Game_members = Done Demo2.game_logic)
    by reflexivity.
  split; [exact Hinit |].
  destruct (gridSize_is_narrowed _ _ _ _ _ Hinit)
    as [Hx [Hz [Hh [_ [Hsmall _]]]]].
  reflexivity.
Defined.

Lemma destructor_completes_witness :
  started (spawn Demo.game0) /\
  exec (spawn Demo.game0) Demo.trace0 Demo.world0 /\
  owner Demo.world0 = Live /\
  exists k tr' w',
    (k <= 9)%nat /\
    run (destroy (firstn k (repeat F32.zero 9))) Demo.world0
    = Some (tr', w') /\
    owner w' = Destroyed.
Proof.
  split; [exact GameFacts.Demo_started |].
  split; [exact exec_trace0 |].
  split; [reflexivity |].
  destruct (destructor_completes (repeat F32.zero 9)
              GameFacts.Demo_started exec_trace0 eq_refl (le_n 9))
    as [k [tr' [w' [Hk [Hrun [Hown _]]]]]].
  exists k, tr', w'.
  repeat split; assumption.
Defined.

Lemma logic_thread_runs_while_alive_witness :
  started (spawn Demo.game0) /\
  exec (spawn Demo.game0) Demo.trace0 Demo.world0 /\
  owner Demo.world0 = Live /\
  alive (game Demo.world0) = true /\
  logicThread (game Demo.world0) = Running.
Proof.
  split; [exact GameFacts.Demo_started |].
  split; [exact exec_trace0 |].
  split; [reflexivity |].
  destruct (logic_thread_runs_while_alive F32.zero GameFacts.Demo_started
              exec_trace0 eq_refl) as [Ha [_ [Ht _]]].
  split; assumption.
Defined.

End RunFacts.
